(** * dgrr/websocket: the server endpoint, its connection pipeline and
      its default frame handler, embedded in Rocq.

    Two revisions of the server live side by side in the repository.  The
    one built on [Conn] (conn.go, the server file that uses [*Conn] and
    [closeOnce], upgrader.go) is the current one and is embedded at top
    level.  The older one built on [ServerConn] (serverConn.go and the
    server file that uses [*ServerConn]) is embedded in [Module Legacy],
    for the places where the two differ.

    Channels are bounded FIFO queues with a closed flag; a goroutine that
    would park on a channel operation yields [Blocks].  [select] picks any
    ready case, so the loops built on it take the sequence of picks as an
    explicit schedule.  Application callbacks are opaque: a handler field
    records whether a callback is registered, and every invocation is
    logged as an [Event]. *)

From Stdlib Require Import String ZArith List Bool Lia.
From Stdlib Require Finite.
Import ListNotations.
Open Scope Z_scope.
Set Warnings "-register-all,-notation-for-abbreviation".

(** ** Outcome of a call that may park or panic *)

Inductive result (A : Type) : Type :=
| Ret (a : A)
| Blocks
| Panics.
Arguments Ret {A} a.
Arguments Blocks {A}.
Arguments Panics {A}.

Definition bind {A B : Type} (m : result A) (k : A -> result B) : result B :=
  match m with
  | Ret a => k a
  | Blocks => Blocks
  | Panics => Panics
  end.

Notation "x <- m ;; k" := (bind m (fun x => k))
  (at level 61, m at next level, right associativity).

(** ** Go channels *)

Module Chan.

Record chan (A : Type) : Type := mkChan {
  cap : nat;
  queue : list A;
  closed : bool
}.
Arguments mkChan {A} cap queue closed.
Arguments cap {A} c.
Arguments queue {A} c.
Arguments closed {A} c.

(** [make(chan A, n)] *)
Definition make {A : Type} (n : nat) : chan A := mkChan n [] false.

(** [len(ch)] *)
Definition len {A : Type} (ch : chan A) : nat := length (queue ch).

(** The channel with [x] appended to its buffer. *)
Definition enq {A : Type} (ch : chan A) (x : A) : chan A :=
  mkChan (cap ch) (queue ch ++ [x]) (closed ch).

(** An open channel whose buffer is not full. *)
Definition has_room {A : Type} (ch : chan A) : Prop :=
  closed ch = false /\ (length (queue ch) < cap ch)%nat.

(** [ch <- x]: parks while the buffer is full, panics on a closed channel. *)
Definition send {A : Type} (ch : chan A) (x : A) : result (chan A) :=
  if closed ch then Panics
  else if (length (queue ch) <? cap ch)%nat
       then Ret (enq ch x)
       else Blocks.

(** [select { case ch <- x: default: }]: the value is dropped when the
    buffer is full. *)
Definition try_send {A : Type} (ch : chan A) (x : A) : result (chan A) :=
  if closed ch then Panics
  else if (length (queue ch) <? cap ch)%nat
       then Ret (enq ch x)
       else Ret ch.

Inductive received (A : Type) : Type :=
| Received (x : A) (ch : chan A)   (* a value, [ok = true] *)
| RecvClosed                       (* zero value, [ok = false] *)
| RecvBlocks.                      (* empty and open: the receiver parks *)
Arguments Received {A} x ch.
Arguments RecvClosed {A}.
Arguments RecvBlocks {A}.

(** [x, ok := <-ch] *)
Definition recv {A : Type} (ch : chan A) : received A :=
  match queue ch with
  | x :: q => Received x (mkChan (cap ch) q (closed ch))
  | [] => if closed ch then RecvClosed else RecvBlocks
  end.

(** [close(ch)]: closing a closed channel panics. *)
Definition close {A : Type} (ch : chan A) : result (chan A) :=
  if closed ch then Panics
  else Ret (mkChan (cap ch) (queue ch) true).

End Chan.

Import Chan.

(** ** Frames *)

Notation bytes := (list Z) (only parsing).

(** Modelled from the spec: the frame value object (the file that declares
    [Frame] is not among the source files).  Attributes are the FIN
    flag, the reserved bits, the opcode, the MASK flag, the masking key and
    the payload bytes; [fr_max] is the limit installed by
    [SetPayloadSize]. *)
Record Frame : Type := mkFrame {
  fr_fin : bool;
  fr_rsv : Z;
  fr_code : Z;
  fr_mask : bool;
  fr_key : bytes;
  fr_b : bytes;
  fr_max : Z
}.

(** Modelled from the spec: the opcodes of the wire format,
    0=cont, 1=text, 2=binary, 8=close, 9=ping, 10=pong. *)
Definition CodeContinuation : Z := 0.
Definition CodeText : Z := 1.
Definition CodeBinary : Z := 2.
Definition CodeClose : Z := 8.
Definition CodePing : Z := 9.
Definition CodePong : Z := 10.

(** Modelled from the spec: a frame freshly taken from the pool carries no
    flag, opcode 0 and an empty payload. *)
Definition AcquireFrame : Frame := mkFrame false 0 0 false [0; 0; 0; 0] [] 0.

(** Modelled from the spec: the predicates [is_fin], [is_control]
    (opcode >= 8), [is_ping], [is_pong], [is_close] and [code]. *)
Definition IsFin (fr : Frame) : bool := fr_fin fr.
Definition Code (fr : Frame) : Z := fr_code fr.
Definition IsControl (fr : Frame) : bool := 8 <=? fr_code fr.
Definition IsPing (fr : Frame) : bool := fr_code fr =? CodePing.
Definition IsPong (fr : Frame) : bool := fr_code fr =? CodePong.
Definition IsClose (fr : Frame) : bool := fr_code fr =? CodeClose.
Definition IsMasked (fr : Frame) : bool := fr_mask fr.

Definition SetFin (fr : Frame) : Frame :=
  mkFrame true (fr_rsv fr) (fr_code fr) (fr_mask fr) (fr_key fr) (fr_b fr) (fr_max fr).
Definition SetCode (code : Z) (fr : Frame) : Frame :=
  mkFrame (fr_fin fr) (fr_rsv fr) code (fr_mask fr) (fr_key fr) (fr_b fr) (fr_max fr).
Definition SetClose : Frame -> Frame := SetCode CodeClose.
Definition SetPing : Frame -> Frame := SetCode CodePing.
Definition SetText : Frame -> Frame := SetCode CodeText.
Definition SetPayload (data : bytes) (fr : Frame) : Frame :=
  mkFrame (fr_fin fr) (fr_rsv fr) (fr_code fr) (fr_mask fr) (fr_key fr) data (fr_max fr).
Definition SetPayloadSize (n : Z) (fr : Frame) : Frame :=
  mkFrame (fr_fin fr) (fr_rsv fr) (fr_code fr) (fr_mask fr) (fr_key fr) (fr_b fr) n.

(** [io.WriteString(fr, s)]: the bytes are appended to the payload. *)
Definition Write (p : bytes) (fr : Frame) : Frame :=
  mkFrame (fr_fin fr) (fr_rsv fr) (fr_code fr) (fr_mask fr) (fr_key fr) (fr_b fr ++ p) (fr_max fr).

(** Modelled from the spec: unmasking XORs the payload with the 4-byte key
    cycled over its length; the MASK flag is left to the caller. *)
Fixpoint xor_cycle (key : bytes) (i : nat) (p : bytes) : bytes :=
  match p with
  | [] => []
  | x :: p' => Z.lxor x (nth (Nat.modulo i 4) key 0) :: xor_cycle key (S i) p'
  end.

Definition Unmask (fr : Frame) : Frame :=
  mkFrame (fr_fin fr) (fr_rsv fr) (fr_code fr) (fr_mask fr) (fr_key fr)
          (xor_cycle (fr_key fr) 0 (fr_b fr)) (fr_max fr).

(** Modelled from the spec: a close frame's payload is either empty or
    begins with a 2-byte big-endian status code followed by the reason
    bytes; [Payload] of a close frame is the reason (the server test reads
    [Payload()] = "Bye" next to [Status()] = StatusGoAway on one close
    frame), and the whole payload for every other frame. *)
Definition Payload (fr : Frame) : bytes :=
  if IsClose fr then skipn 2 (fr_b fr) else fr_b fr.

(** Modelled from the spec: [SetStatus] stores the status as the two
    leading payload bytes, big-endian. *)
Definition SetStatus (status : Z) (fr : Frame) : Frame :=
  mkFrame (fr_fin fr) (fr_rsv fr) (fr_code fr) (fr_mask fr) (fr_key fr)
          ((status / 256) mod 256 :: status mod 256 :: skipn 2 (fr_b fr)) (fr_max fr).

(** ** Errors *)

(** A Go [error] value: [None] is [nil].  [Error] is the typed close error
    of error.go, [closeError] the wrapper declared next to the loops, and
    [otherError] stands for every other error (transport and decode
    errors). *)
Inductive error : Type :=
| Error (Status : Z) (Reason : bytes)
| closeError (err : option error)
| otherError (msg : string).

Notation goerror := (option error) (only parsing).

(** ** Callbacks *)

Inductive Event : Type :=
| OnOpen
| OnMessage (isBinary : bool) (data : bytes)
| OnPing (data : bytes)
| OnPong (data : bytes)
| OnClose (err : goerror)
| OnError (err : goerror)
| OnFrame (fr : Frame)
| CloserClosed.            (* [close(c.closer)] was executed *)

(** The server: a handler field is [true] when the application registered
    a callback ([frHandler] is [true] for a user-supplied raw frame
    handler; [initServer] installs [handleFrame] otherwise). *)
Record Server : Type := mkServer {
  Protocols : list string;
  Origin : string;
  nextID : Z;
  openHandler : bool;
  frHandler : bool;
  closeHandler : bool;
  msgHandler : bool;
  pingHandler : bool;
  pongHandler : bool;
  errHandler : bool
}.

(** ** Connections *)

(** The socket behind [c.c], [c.br] and [c.bw]: the frames flushed to the
    wire so far, whether [Close] was called, and the transport's behaviour
    on the coming writes ([true] = that write fails; none listed = it
    succeeds). *)
Record Socket : Type := mkSocket {
  wire : list Frame;
  faults : list bool;
  sock_closed : bool
}.

Record Conn : Type := mkConn {
  sock : Socket;
  input : chan Frame;
  output : chan Frame;
  closer : chan unit;
  closeOnce : bool;          (* [sync.Once]: [true] once it has fired *)
  errch : chan goerror;
  buffered : option bytes;   (* [nil] or the reassembly buffer *)
  id : Z;
  ReadTimeout : Z;
  WriteTimeout : Z;
  MaxPayloadSize : Z;
  wg : nat;
  ctx : list (string * string)
}.

Definition DefaultPayloadSize : Z := Z.shiftl 1 20.

Definition zeroConn : Conn :=
  mkConn (mkSocket [] [] false) (make 0) (make 0) (make 0) false (make 0)
         None 0 0 0 0 0 [].

(** [func (c *Conn) reset(conn net.Conn)] *)
Definition reset (conn : Socket) (c : Conn) : Conn :=
  mkConn conn
         (make 128) (make 128) (make 1)
         (closeOnce c)
         (make 2)
         (buffered c) (id c)
         0 0 DefaultPayloadSize
         (wg c) [].

(** [func acquireConn(c net.Conn) (conn *Conn)]; the two goroutines it
    starts are [readLoop] and [writeLoop] below. *)
Definition acquireConn (c : Socket) : Conn :=
  let conn := reset c zeroConn in
  mkConn (sock conn) (input conn) (output conn) (closer conn) (closeOnce conn)
         (errch conn) (buffered conn) (id conn) (ReadTimeout conn)
         (WriteTimeout conn) (MaxPayloadSize conn) (wg conn + 2) (ctx conn).

(** Field updates. *)
Definition with_sock (x : Socket) (c : Conn) : Conn :=
  mkConn x (input c) (output c) (closer c) (closeOnce c) (errch c)
         (buffered c) (id c) (ReadTimeout c) (WriteTimeout c)
         (MaxPayloadSize c) (wg c) (ctx c).
Definition with_input (x : chan Frame) (c : Conn) : Conn :=
  mkConn (sock c) x (output c) (closer c) (closeOnce c) (errch c)
         (buffered c) (id c) (ReadTimeout c) (WriteTimeout c)
         (MaxPayloadSize c) (wg c) (ctx c).
Definition with_output (x : chan Frame) (c : Conn) : Conn :=
  mkConn (sock c) (input c) x (closer c) (closeOnce c) (errch c)
         (buffered c) (id c) (ReadTimeout c) (WriteTimeout c)
         (MaxPayloadSize c) (wg c) (ctx c).
Definition with_closer (x : chan unit) (once : bool) (c : Conn) : Conn :=
  mkConn (sock c) (input c) (output c) x once (errch c)
         (buffered c) (id c) (ReadTimeout c) (WriteTimeout c)
         (MaxPayloadSize c) (wg c) (ctx c).
Definition with_errch (x : chan goerror) (c : Conn) : Conn :=
  mkConn (sock c) (input c) (output c) (closer c) (closeOnce c) x
         (buffered c) (id c) (ReadTimeout c) (WriteTimeout c)
         (MaxPayloadSize c) (wg c) (ctx c).
Definition with_buffered (x : option bytes) (c : Conn) : Conn :=
  mkConn (sock c) (input c) (output c) (closer c) (closeOnce c) (errch c)
         x (id c) (ReadTimeout c) (WriteTimeout c)
         (MaxPayloadSize c) (wg c) (ctx c).
Definition with_MaxPayloadSize (x : Z) (c : Conn) : Conn :=
  mkConn (sock c) (input c) (output c) (closer c) (closeOnce c) (errch c)
         (buffered c) (id c) (ReadTimeout c) (WriteTimeout c)
         x (wg c) (ctx c).

(** [c.c.Close()] *)
Definition sockClose (c : Conn) : Conn :=
  with_sock (mkSocket (wire (sock c)) (faults (sock c)) true) c.

(** ** Handshake helper: upgrader.go *)

(** [func selectProtocol(protos [][]byte, accepted []string) string] *)
Fixpoint firstAccepted (proto : string) (accepted : list string) : option string :=
  match accepted with
  | [] => None
  | accept :: rest =>
      if String.eqb proto accept then Some accept else firstAccepted proto rest
  end.

Fixpoint scanProtos (protos : list string) (accepted : list string) : option string :=
  match protos with
  | [] => None
  | proto :: rest =>
      match firstAccepted proto accepted with
      | Some accept => Some accept
      | None => scanProtos rest accepted
      end
  end.

Definition selectProtocol (protos : list string) (accepted : list string) : string :=
  match protos with
  | [] => EmptyString
  | first :: _ =>
      match scanProtos protos accepted with
      | Some accept => accept
      | None => first
      end
  end.

(** ** The writer side of a connection: conn.go *)

(** [func (c *Conn) writeFrame(fr *Frame) error]: the frame gets the
    connection's payload limit, is encoded into the buffered writer and
    flushed.  The write deadline only bounds the duration of the write. *)
Definition writeFrame (c : Conn) (fr : Frame) : Conn * goerror :=
  let fr := SetPayloadSize (MaxPayloadSize c) fr in
  let s := sock c in
  if sock_closed s then (c, Some (otherError "use of closed network connection"))
  else match faults s with
       | true :: rest =>
           (with_sock (mkSocket (wire s) rest (sock_closed s)) c,
            Some (otherError "write failed"))
       | false :: rest =>
           (with_sock (mkSocket (wire s ++ [fr]) rest (sock_closed s)) c, None)
       | [] =>
           (with_sock (mkSocket (wire s ++ [fr]) [] (sock_closed s)) c, None)
       end.

(** [func (c *Conn) WriteFrame(fr *Frame)]: [c.output <- fr] *)
Definition WriteFrame (c : Conn) (fr : Frame) : result Conn :=
  ch <- send (output c) fr ;; Ret (with_output ch c).

(** [func (c *Conn) isClosed() bool]: a non-blocking receive on the closer
    latch, on which nothing is ever sent. *)
Definition isClosed (c : Conn) : bool :=
  match recv (closer c) with
  | RecvBlocks => false
  | _ => true
  end.

(** [c.closeOnce.Do(func() { close(c.closer) })] *)
Definition closeOnceDo (c : Conn) : result (Conn * list Event) :=
  if closeOnce c then Ret (c, [])
  else ch <- close (closer c) ;; Ret (with_closer ch true c, [CloserClosed]).

(** [func (c *Conn) CloseDetail(status StatusCode, reason string)] *)
Definition CloseDetail (c : Conn) (status : Z) (reason : bytes)
  : result (Conn * list Event) :=
  if negb (isClosed c) then
    let fr := AcquireFrame in
    let fr := SetClose fr in
    let fr := SetStatus status fr in
    let fr := SetFin fr in
    let fr := Write reason fr in
    c1 <- WriteFrame c fr ;;
    closeOnceDo c1
  else Ret (c, []).

(** [n] sequential calls of [CloseDetail], each with its own arguments. *)
Fixpoint CloseDetail_seq (c : Conn) (calls : list (Z * bytes))
  : result (Conn * list Event) :=
  match calls with
  | [] => Ret (c, [])
  | (status, reason) :: rest =>
      r1 <- CloseDetail c status reason ;;
      r2 <- CloseDetail_seq (fst r1) rest ;;
      Ret (fst r2, snd r1 ++ snd r2)
  end.

(** How a worker goroutine ends: it returns, or it stays parked on a
    channel receive that nothing will satisfy in the given state. *)
Inductive worker_end : Type :=
| WExit (c : Conn)
| WParked (c : Conn)
| WPanic.

(** [defer c.wg.Done()] *)
Definition wgDone (c : Conn) : Conn :=
  mkConn (sock c) (input c) (output c) (closer c) (closeOnce c) (errch c)
         (buffered c) (id c) (ReadTimeout c) (WriteTimeout c)
         (MaxPayloadSize c) (Nat.pred (wg c)) (ctx c).

(** The loop after the label of [writeLoop]:
    [for n := len(c.output); n >= 0; n-- { fr, ok := <-c.output; ... }];
    [iters] counts the iterations still to run. *)
Fixpoint flushLoop (iters : nat) (c : Conn) : worker_end :=
  match iters with
  | O => WExit (wgDone c)
  | S iters' =>
      match recv (output c) with
      | RecvBlocks => WParked c
      | RecvClosed => WExit (wgDone c)
      | Received fr ch =>
          let r := writeFrame (with_output ch c) fr in
          match snd r with
          | Some _ => WExit (wgDone (fst r))
          | None => flushLoop iters' (fst r)
          end
      end
  end.

Inductive WriterCase : Type := WCaseOutput | WCaseCloser.

(** [func (c *Conn) writeLoop()]; [sched] lists the case that each pass of
    the [select] takes.  [None]: the schedule names a case that is not
    ready, or ends while the loop still runs. *)
Fixpoint writeLoop (sched : list WriterCase) (c : Conn) : option worker_end :=
  match sched with
  | [] => None
  | WCaseOutput :: sched' =>
      match recv (output c) with
      | Received fr ch =>
          let r := writeFrame (with_output ch c) fr in
          let posted :=
            match snd r with
            | Some e =>
                ech <- try_send (errch (fst r)) (Some (closeError (Some e))) ;;
                Ret (with_errch ech (fst r))
            | None => Ret (fst r)
            end in
          match posted with
          | Ret c' =>
              if IsClose fr then Some (WExit (wgDone c'))
              else writeLoop sched' c'
          | _ => Some WPanic
          end
      | RecvClosed => Some WPanic
      | RecvBlocks => None
      end
  | WCaseCloser :: _ =>
      match recv (closer c) with
      | RecvBlocks => None
      | RecvClosed => Some (flushLoop (S (len (output c))) c)
      | Received _ ch =>
          let c' := with_closer ch (closeOnce c) c in
          Some (flushLoop (S (len (output c'))) c')
      end
  end.

(** One pass of [func (c *Conn) readLoop()]; [ReadFrom] is the decoder
    applied to the socket's pending bytes.  The boolean tells whether the
    loop goes on. *)
Definition readLoop_iter (ReadFrom : Frame -> Frame * goerror) (c : Conn)
  : result (bool * Conn) :=
  let fr := SetPayloadSize (MaxPayloadSize c) AcquireFrame in
  let r := ReadFrom fr in
  match snd r with
  | Some e =>
      ech <- try_send (errch c) (Some (closeError (Some e))) ;;
      Ret (false, with_errch ech c)
  | None =>
      let isClose := IsClose (fst r) in
      ich <- send (input c) (fst r) ;;
      Ret (negb isClose, with_input ich c)
  end.

(** ** The server: default frame handler and supervisor loop *)

Section Endpoint.

(** The value of the [StatusNone] constant is declared with the frame
    type; the development is parametric in it. *)
Variable StatusNone : Z.

(** Modelled from the spec: [status] is the big-endian u16 held by the
    first two payload bytes, or the "none" sentinel when the payload
    carries none. *)
Definition Status (fr : Frame) : Z :=
  match fr_b fr with
  | b0 :: b1 :: _ => b0 * 256 + b1
  | _ => StatusNone
  end.

(** [func (c *Conn) Close() error] *)
Definition Close (c : Conn) : result (Conn * list Event) :=
  CloseDetail c StatusNone [].

(** [func (s *Server) handleFrameData(c *Conn, fr *Frame)] *)
Definition handleFrameData (s : Server) (c : Conn) (fr : Frame)
  : Conn * list Event :=
  let isBinary := Code fr =? CodeBinary in
  let r :=
    match buffered c with
    | None =>
        if IsFin fr then (Payload fr, c)
        else ([], with_buffered (Some ([] ++ Payload fr)) c)
    | Some bf =>
        let bf := bf ++ Payload fr in
        if IsFin fr then (bf, with_buffered None c)
        else ([], with_buffered (Some bf) c)
    end in
  let data := fst r in
  if negb (Nat.eqb (length data) 0) && msgHandler s
  then (snd r, [OnMessage isBinary data])
  else (snd r, []).

(** [func (s *Server) handlePing(c *Conn, data []byte)] *)
Definition handlePing (s : Server) (c : Conn) (data : bytes)
  : result (Conn * list Event) :=
  let evs := if pingHandler s then [OnPing data] else [] in
  let pong := AcquireFrame in
  let pong := SetCode CodePong pong in
  let pong := SetPayload data pong in
  let pong := SetFin pong in
  c' <- WriteFrame c pong ;;
  Ret (c', evs).

(** [func (s *Server) handlePong(c *Conn, data []byte)] *)
Definition handlePong (s : Server) (c : Conn) (data : bytes)
  : result (Conn * list Event) :=
  Ret (c, if pongHandler s then [OnPong data] else []).

(** [func (s *Server) handleClose(c *Conn, fr *Frame)]; the deferred
    [closeOnce.Do] runs when the body returns. *)
Definition handleClose (s : Server) (c : Conn) (fr : Frame)
  : result (Conn * list Event) :=
  let err :=
    if negb (Status fr =? StatusNone)
    then Some (Error (Status fr) (Payload fr))
    else None in
  ech <- send (errch c) err ;;
  let c := with_errch ech c in
  let status := Status fr in
  let fr := AcquireFrame in
  let fr := SetClose fr in
  let fr := SetStatus status fr in
  let fr := SetFin fr in
  c <- WriteFrame c fr ;;
  closeOnceDo c.

(** [func (s *Server) handleControl(c *Conn, fr *Frame)] *)
Definition handleControl (s : Server) (c : Conn) (fr : Frame)
  : result (Conn * list Event) :=
  if IsPing fr then handlePing s c (Payload fr)
  else if IsPong fr then handlePong s c (Payload fr)
  else if IsClose fr then handleClose s c fr
  else Ret (c, []).

(** [func (s *Server) handleFrame(c *Conn, fr *Frame)] *)
Definition handleFrame (s : Server) (c : Conn) (fr : Frame)
  : result (Conn * list Event) :=
  let fr := if IsMasked fr then Unmask fr else fr in
  if IsControl fr then handleControl s c fr
  else Ret (handleFrameData s c fr).

(** [s.frHandler(c, fr)]: the application's raw frame handler when one was
    registered, [handleFrame] (installed by [initServer]) otherwise. *)
Definition callFrHandler (s : Server) (c : Conn) (fr : Frame)
  : result (Conn * list Event) :=
  if frHandler s then Ret (c, [OnFrame fr]) else handleFrame s c fr.

(** The payload the handlers see: [handleFrame] unmasks a masked frame
    before it dispatches. *)
Definition clearPayload (fr : Frame) : bytes :=
  Payload (if IsMasked fr then Unmask fr else fr).

(** The default handler over the frames of the inbound queue, one after
    the other. *)
Fixpoint handleFrames (s : Server) (c : Conn) (frs : list Frame)
  : result (Conn * list Event) :=
  match frs with
  | [] => Ret (c, [])
  | fr :: rest =>
      r1 <- handleFrame s c fr ;;
      r2 <- handleFrames s (fst r1) rest ;;
      Ret (fst r2, snd r1 ++ snd r2)
  end.

Inductive SelectCase : Type := CaseInput | CaseErrch | CaseCloser.

Definition isOnClose (e : Event) : bool :=
  match e with
  | OnClose _ => true
  | _ => false
  end.


(** What one pass of the supervisor's [select] does to the loop. *)
Inductive LoopCtl : Type :=
| Continue
| Break (closeErr : goerror).

(** One pass of the [select] of [serveConn] taking case [k]; [None] when
    that case is not ready. *)
Definition serveSelect (s : Server) (c : Conn) (k : SelectCase)
  : option (result (LoopCtl * Conn * list Event)) :=
  match k with
  | CaseInput =>
      match recv (input c) with
      | Received fr ch =>
          Some (r <- callFrHandler s (with_input ch c) fr ;;
                Ret (Continue, fst r, snd r))
      | RecvClosed => Some Panics
      | RecvBlocks => None
      end
  | CaseErrch =>
      match recv (errch c) with
      | Received err ch =>
          let c := with_errch ch c in
          Some (Ret
            match err with
            | None => (Break None, c, [])
            | Some (closeError e) => (Break e, c, [])
            | Some (Error st rs) => (Break (Some (Error st rs)), c, [])
            | Some (otherError m) =>
                (Continue, c, if errHandler s then [OnError err] else [])
            end)
      | RecvClosed => Some (Ret (Break None, c, []))
      | RecvBlocks => None
      end
  | CaseCloser =>
      match recv (closer c) with
      | Received _ ch =>
          Some (Ret (Break None, with_closer ch (closeOnce c) c, []))
      | RecvClosed => Some (Ret (Break None, c, []))
      | RecvBlocks => None
      end
  end.

(** The labelled loop of [serveConn] under a schedule of picks; it yields
    the close cause, the connection and the callbacks made. *)
Fixpoint serveLoop (s : Server) (sched : list SelectCase) (c : Conn)
  : option (result (goerror * Conn * list Event)) :=
  match sched with
  | [] => None
  | k :: sched' =>
      match serveSelect s c k with
      | None => None
      | Some Blocks => Some Blocks
      | Some Panics => Some Panics
      | Some (Ret (Break closeErr, c', evs)) => Some (Ret (closeErr, c', evs))
      | Some (Ret (Continue, c', evs)) =>
          match serveLoop s sched' c' with
          | Some (Ret (closeErr, c'', evs')) => Some (Ret (closeErr, c'', evs ++ evs'))
          | other => other
          end
      end
  end.

(** [func (s *Server) serveConn(c *Conn)] up to its final [c.wg.Wait()],
    the join with the two workers. *)
Definition serveConn (s : Server) (sched : list SelectCase) (c : Conn)
  : option (result (Conn * list Event)) :=
  match serveLoop s sched c with
  | Some (Ret (closeErr, c', evs)) =>
      let evs' := if closeHandler s then [OnClose closeErr] else [] in
      Some (Ret (sockClose c', evs ++ evs'))
  | Some Blocks => Some Blocks
  | Some Panics => Some Panics
  | None => None
  end.

End Endpoint.

(** The connection once [handleClose] has returned: the cause
    [err] sits in the mailbox, [reply] in the outbound queue, and the latch
    is closed. *)
Definition afterPeerClose (c : Conn) (err : goerror) (reply : Frame) : Conn :=
  let c := with_errch (enq (errch c) err) c in
  let c := with_output (enq (output c) reply) c in
  with_closer (mkChan (cap (closer c)) (queue (closer c)) true) true c.

(** ** The older revision: serverConn.go and its server file

    [ServerConn] has the fields of [Conn] without [closeOnce]; the record
    [Conn] is reused with that field left alone. *)

Module Legacy.

Section Endpoint.

Variable StatusNone : Z.

(** [func (c *ServerConn) Close() error] *)
Definition Close (c : Conn) : result Conn :=
  match recv (closer c) with
  | RecvBlocks => Ret c                       (* [default: return nil] *)
  | _ =>
      ch <- close (closer c) ;;
      Ret (sockClose (with_closer ch (closeOnce c) c))
  end.

(** [func (c *ServerConn) writeLoop()] *)
Fixpoint writeLoop (sched : list WriterCase) (c : Conn) : option worker_end :=
  match sched with
  | [] => None
  | WCaseOutput :: sched' =>
      match recv (output c) with
      | Received fr ch =>
          let r := writeFrame (with_output ch c) fr in
          let posted :=
            match snd r with
            | Some e =>
                ech <- try_send (errch (fst r)) (Some (closeError (Some e))) ;;
                Ret (with_errch ech (fst r))
            | None => Ret (fst r)
            end in
          match posted with
          | Ret c' => writeLoop sched' c'
          | _ => Some WPanic
          end
      | RecvClosed => Some WPanic
      | RecvBlocks => None
      end
  | WCaseCloser :: _ =>
      match recv (closer c) with
      | RecvBlocks => None
      | _ => Some (WExit (wgDone c))
      end
  end.

(** [func (s *Server) handleFrameData(c *ServerConn, fr *Frame)] *)
Definition handleFrameData (s : Server) (c : Conn) (fr : Frame)
  : Conn * list Event :=
  let isBinary := Code fr =? CodeBinary in
  let fr := if IsMasked fr then Unmask fr else fr in
  let r :=
    match buffered c with
    | None =>
        if IsFin fr then (Payload fr, c)
        else ([], with_buffered (Some ([] ++ Payload fr)) c)
    | Some bf =>
        let bf := bf ++ Payload fr in
        if IsFin fr then (bf, with_buffered None c)
        else ([], with_buffered (Some bf) c)
    end in
  let data := fst r in
  if negb (Nat.eqb (length data) 0) && msgHandler s
  then (snd r, [OnMessage isBinary data])
  else (snd r, []).

(** [func (s *Server) handlePing(c *ServerConn, data []byte)] *)
Definition handlePing (c : Conn) (data : bytes) : result (Conn * list Event) :=
  let pong := AcquireFrame in
  let pong := SetCode CodePong pong in
  let pong := SetPayload data pong in
  c' <- WriteFrame c pong ;;
  Ret (c', []).

(** [s.pingHandler(c, data)] after [checkDefaults]: the registered
    callback, or [handlePing] when none was registered. *)
Definition callPingHandler (s : Server) (c : Conn) (data : bytes)
  : result (Conn * list Event) :=
  if pingHandler s then Ret (c, [OnPing data]) else handlePing c data.

(** [func (s *Server) handleClose(c *ServerConn, fr *Frame)] *)
Definition handleClose (s : Server) (c : Conn) (fr : Frame)
  : result (Conn * list Event) :=
  let fr := Unmask fr in
  let err :=
    if negb (Status StatusNone fr =? StatusNone)
    then Some (Error (Status StatusNone fr) (Payload fr))
    else None in
  let evs := if closeHandler s then [OnClose err] else [] in
  let frRes := AcquireFrame in
  let frRes := SetClose frRes in
  let frRes := SetStatus (Status StatusNone fr) frRes in
  Ret (fst (writeFrame c frRes), evs).

(** [func (s *Server) handleControl(c *ServerConn, fr *Frame)]; calling a
    [pongHandler] that was never registered is a call through a nil
    function value. *)
Definition handleControl (s : Server) (c : Conn) (fr : Frame)
  : result (Conn * list Event) :=
  if IsPing fr then callPingHandler s c (Payload fr)
  else if IsPong fr then
    (if pongHandler s then Ret (c, [OnPong (Payload fr)]) else Panics)
  else if IsClose fr then handleClose s c fr
  else Ret (c, []).

(** [func (s *Server) handleFrame(c *ServerConn, fr *Frame)] *)
Definition handleFrame (s : Server) (c : Conn) (fr : Frame)
  : result (Conn * list Event) :=
  if IsControl fr then handleControl s c fr
  else Ret (handleFrameData s c fr).

(** One pass of the [select] of the older [serveConn]. *)
Definition serveSelect (s : Server) (c : Conn) (k : SelectCase)
  : option (result (LoopCtl * Conn * list Event)) :=
  match k with
  | CaseInput =>
      match recv (input c) with
      | Received fr ch =>
          Some (r <- (if frHandler s then Ret (with_input ch c, [OnFrame fr])
                      else handleFrame s (with_input ch c) fr) ;;
                Ret (Continue, fst r, snd r))
      | RecvClosed => Some Panics
      | RecvBlocks => None
      end
  | CaseErrch =>
      match recv (errch c) with
      | Received err ch =>
          let c := with_errch ch c in
          Some (Ret
            match err with
            | Some (closeError e) => (Break e, c, [])
            | _ => (Continue, c, if errHandler s then [OnError err] else [])
            end)
      | RecvClosed =>
          Some (Ret (Continue, c, if errHandler s then [OnError None] else []))
      | RecvBlocks => None
      end
  | CaseCloser =>
      match recv (closer c) with
      | Received _ ch =>
          Some (Ret (Break None, with_closer ch (closeOnce c) c, []))
      | RecvClosed => Some (Ret (Break None, c, []))
      | RecvBlocks => None
      end
  end.

End Endpoint.

End Legacy.

(** ** More of conn.go and of the server file *)


(** [func (c *Conn) Ping(data []byte)] *)
Definition Ping (c : Conn) (data : bytes) : result Conn :=
  let fr := AcquireFrame in
  let fr := SetPing fr in
  let fr := SetFin fr in
  let fr := SetPayload data fr in
  WriteFrame c fr.

(** How the reader stands once the bytes at hand are used up: it has
    returned, it waits in [ReadFrom] for more bytes, or it is parked on a
    full inbound queue. *)
Inductive reader_end : Type :=
| RExit (c : Conn)
| RWaiting (c : Conn)
| RParked (c : Conn)
| RPanic.

(** [func (c *Conn) readLoop()]; [reads] lists what the decoder does at
    each successive [fr.ReadFrom(c.br)]. *)
Fixpoint readLoop (reads : list (Frame -> Frame * goerror)) (c : Conn)
  : reader_end :=
  match reads with
  | [] => RWaiting c
  | ReadFrom :: reads' =>
      match readLoop_iter ReadFrom c with
      | Ret (true, c') => readLoop reads' c'
      | Ret (false, c') => RExit (wgDone c')
      | Blocks => RParked c
      | Panics => RPanic
      end
  end.

(** A decoder step that yields the frame [fr] under the limit it was
    given, and one that fails with [e]. *)
Definition decodes (fr : Frame) : Frame -> Frame * goerror :=
  fun prepared => (SetPayloadSize (fr_max prepared) fr, None).
Definition decodeFails (e : error) : Frame -> Frame * goerror :=
  fun prepared => (prepared, Some e).

(** [atomic.AddUint64(&x, delta)] *)
Definition AddUint64 (x delta : Z) : Z := (x + delta) mod 2 ^ 64.

Definition with_nextID (n : Z) (s : Server) : Server :=
  mkServer (Protocols s) (Origin s) n (openHandler s) (frHandler s)
           (closeHandler s) (msgHandler s) (pingHandler s) (pongHandler s)
           (errHandler s).

Definition with_id_ctx (n : Z) (nctx : list (string * string)) (c : Conn) : Conn :=
  mkConn (sock c) (input c) (output c) (closer c) (closeOnce c) (errch c)
         (buffered c) n (ReadTimeout c) (WriteTimeout c)
         (MaxPayloadSize c) (wg c) nctx.

(** The function that [Upgrade] hands to [ctx.Hijack], up to its call of
    [serveConn]: the connection is built, numbered, given the request's
    user values, and shown to the open callback. *)
Definition hijackOpen (s : Server) (nc : Socket) (nctx : list (string * string))
  : Server * Conn * list Event :=
  let conn := acquireConn nc in
  let n := AddUint64 (nextID s) 1 in
  let conn := with_id_ctx n nctx conn in
  (with_nextID n s, conn, if openHandler s then [OnOpen] else []).

(** The whole hijack function, [serveConn] included, on the runs in which
    the reader goroutine started by [acquireConn] has gone through [reads]
    by the time the supervisor enters its loop. *)
Definition hijack (StatusNone : Z) (s : Server) (nc : Socket)
           (nctx : list (string * string))
           (reads : list (Frame -> Frame * goerror)) (sched : list SelectCase)
  : Server * option (result (Conn * list Event)) :=
  let '(s', conn, evs) := hijackOpen s nc nctx in
  (s',
   match readLoop reads conn with
   | RPanic => Some Panics
   | RExit conn' | RWaiting conn' | RParked conn' =>
       match serveConn StatusNone s sched conn' with
       | Some (Ret (c', evs')) => Some (Ret (c', evs ++ evs'))
       | other => other
       end
   end).

(** The connections opened for a sequence of upgraded sockets. *)
Fixpoint hijackAll (s : Server) (ncs : list Socket) : list Conn :=
  match ncs with
  | [] => []
  | nc :: rest =>
      let '(s', conn, _) := hijackOpen s nc [] in
      conn :: hijackAll s' rest
  end.

Definition isOnMessage (e : Event) : bool :=
  match e with
  | OnMessage _ _ => true
  | _ => false
  end.

(** The channels of a connection are open and within their capacity, and
    a closed latch goes with a [closeOnce] that has fired. *)
Definition within_cap {A : Type} (ch : chan A) : Prop :=
  (length (queue ch) <= cap ch)%nat.

Definition conn_ok (c : Conn) : Prop :=
  (closed (input c) = false /\ within_cap (input c)) /\
  (closed (output c) = false /\ within_cap (output c)) /\
  (closed (errch c) = false /\ within_cap (errch c)) /\
  (queue (closer c) = [] /\ (closed (closer c) = true -> closeOnce c = true)).

(** The call does not panic and, when it returns, its result satisfies
    [P]. *)
Definition returns_ok {A : Type} (P : A -> Prop) (r : result A) : Prop :=
  match r with
  | Ret a => P a
  | Blocks => True
  | Panics => False
  end.

(** The callbacks made from inside the supervisor's loop. *)
Definition isLoopEvent (e : Event) : bool :=
  match e with
  | OnOpen | OnClose _ => false
  | _ => true
  end.

(** * Properties *)

(** ** Channels *)

Lemma send_has_room {A : Type} (ch : chan A) (x : A) :
  has_room ch -> send ch x = Ret (enq ch x).
Proof.
  intros [Hopen Hlen]. unfold send. rewrite Hopen.
  apply Nat.ltb_lt in Hlen. now rewrite Hlen.
Qed.

Lemma WriteFrame_has_room (c : Conn) (fr : Frame) :
  has_room (output c) -> WriteFrame c fr = Ret (with_output (enq (output c) fr) c).
Proof.
  intros H. unfold WriteFrame. now rewrite (send_has_room _ _ H).
Qed.

(** ** Protocol selection *)

Lemma firstAccepted_Some (proto : string) (accepted : list string) (a : string) :
  firstAccepted proto accepted = Some a -> a = proto /\ In proto accepted.
Proof.
  induction accepted as [|x rest IH]; simpl; [discriminate|].
  destruct (String.eqb proto x) eqn:E.
  - apply String.eqb_eq in E. intros [= <-]. subst. auto.
  - intros H. destruct (IH H). auto.
Qed.

Lemma firstAccepted_None (proto : string) (accepted : list string) :
  firstAccepted proto accepted = None <-> ~ In proto accepted.
Proof.
  induction accepted as [|x rest IH]; simpl.
  - split; auto.
  - destruct (String.eqb proto x) eqn:E.
    + apply String.eqb_eq in E. split; [discriminate|]. intros H. exfalso. auto.
    + apply String.eqb_neq in E. rewrite IH. split.
      * intros H [H1|H1]; [congruence | auto].
      * intros H H1. auto.
Qed.

Lemma firstAccepted_In (proto : string) (accepted : list string) :
  In proto accepted -> firstAccepted proto accepted = Some proto.
Proof.
  intros H. destruct (firstAccepted proto accepted) as [a|] eqn:E.
  - apply firstAccepted_Some in E. now destruct E as [-> _].
  - apply firstAccepted_None in E. contradiction.
Qed.

Lemma scanProtos_first_match (pre post accepted : list string) (p : string) :
  In p accepted ->
  (forall q, In q pre -> ~ In q accepted) ->
  scanProtos (pre ++ p :: post) accepted = Some p.
Proof.
  intros Hp. induction pre as [|q pre IH]; simpl; intros Hpre.
  - now rewrite (firstAccepted_In _ _ Hp).
  - assert (Hq : firstAccepted q accepted = None)
      by (apply firstAccepted_None, Hpre; auto).
    rewrite Hq. apply IH. intros r Hr. apply Hpre. auto.
Qed.

Lemma scanProtos_no_match (protos accepted : list string) :
  (forall q, In q protos -> ~ In q accepted) ->
  scanProtos protos accepted = None.
Proof.
  induction protos as [|q rest IH]; simpl; intros H; [reflexivity|].
  assert (Hq : firstAccepted q accepted = None)
    by (apply firstAccepted_None, H; auto).
  rewrite Hq. apply IH. intros r Hr. apply H. auto.
Qed.

(** C8: [selectProtocol] returns the first client offer that equals some
    server entry; when no offer matches it returns the first client offer;
    when the client offered nothing it returns the empty string. *)
Theorem selectProtocol_first_match (protos accepted : list string) :
  (forall pre p post,
      protos = pre ++ p :: post ->
      In p accepted ->
      (forall q, In q pre -> ~ In q accepted) ->
      selectProtocol protos accepted = p) /\
  (forall first rest,
      protos = first :: rest ->
      (forall q, In q protos -> ~ In q accepted) ->
      selectProtocol protos accepted = first) /\
  (protos = [] -> selectProtocol protos accepted = EmptyString).
Proof.
  split; [|split].
  - intros pre p post -> Hp Hpre. unfold selectProtocol.
    rewrite (scanProtos_first_match pre post accepted p Hp Hpre).
    destruct pre; reflexivity.
  - intros first rest -> Hnone. unfold selectProtocol.
    now rewrite (scanProtos_no_match _ _ Hnone).
  - intros ->. reflexivity.
Qed.

Lemma selectProtocol_first_match_witness :
  selectProtocol ["mqtt"; "chat"; "soap"]%string ["soap"; "chat"]%string = "chat"%string /\
  selectProtocol ["mqtt"; "wamp"]%string ["soap"; "chat"]%string = "mqtt"%string /\
  selectProtocol [] ["soap"; "chat"]%string = EmptyString.
Proof.
  pose proof (selectProtocol_first_match
                ["mqtt"; "chat"; "soap"]%string ["soap"; "chat"]%string) as [H1 _].
  pose proof (selectProtocol_first_match
                ["mqtt"; "wamp"]%string ["soap"; "chat"]%string) as [_ [H2 _]].
  pose proof (selectProtocol_first_match [] ["soap"; "chat"]%string) as [_ [_ H3]].
  split; [|split].
  - apply (H1 ["mqtt"%string] "chat"%string ["soap"%string]).
    + reflexivity.
    + simpl. auto.
    + intros q [<-|[]] [H|[H|[]]]; discriminate H.
  - apply (H2 "mqtt"%string ["wamp"%string]).
    + reflexivity.
    + intros q [<-|[<-|[]]] [H|[H|[]]]; discriminate H.
  - apply H3. reflexivity.
Defined.

(** ** Endpoint defaults *)

(** C9: a freshly constructed connection has an inbound and an outbound
    queue of capacity 128 each, an error mailbox of capacity 2 and a
    maximum payload size of [1 << 20]; the limit is a field of the
    connection, and the value stored there is the one installed on every
    frame written. *)
Theorem acquireConn_defaults (nc : Socket) :
  let conn := acquireConn nc in
  (cap (input conn) = 128%nat /\ queue (input conn) = [] /\ closed (input conn) = false) /\
  (cap (output conn) = 128%nat /\ queue (output conn) = [] /\ closed (output conn) = false) /\
  (cap (errch conn) = 2%nat /\ queue (errch conn) = [] /\ closed (errch conn) = false) /\
  MaxPayloadSize conn = DefaultPayloadSize /\
  DefaultPayloadSize = 1048576 /\
  forall (n : Z) (fr : Frame),
    let conn' := with_MaxPayloadSize n conn in
    MaxPayloadSize conn' = n /\
    cap (input conn') = 128%nat /\ cap (output conn') = 128%nat /\
    cap (errch conn') = 2%nat /\
    (sock_closed nc = false -> faults nc = [] ->
     wire (sock (fst (writeFrame conn' fr))) = wire nc ++ [SetPayloadSize n fr]).
Proof.
  cbn. repeat split.
  intros Hopen Hfaults. unfold writeFrame. cbn. rewrite Hopen, Hfaults. reflexivity.
Qed.

Lemma acquireConn_defaults_witness :
  wire (sock (fst (writeFrame
    (with_MaxPayloadSize 65536 (acquireConn (mkSocket [] [] false)))
    (SetText AcquireFrame))))
  = [SetPayloadSize 65536 (SetText AcquireFrame)].
Proof.
  pose proof (acquireConn_defaults (mkSocket [] [] false)) as H.
  cbv zeta in H.
  destruct H as (_ & _ & _ & _ & _ & H).
  destruct (H 65536 (SetText AcquireFrame)) as (_ & _ & _ & _ & Hw).
  apply Hw; reflexivity.
Defined.

(** ** The default frame handler *)

Lemma handleFrameData_nonempty (s : Server) (c : Conn) (fr : Frame)
      (isBinary : bool) (data : bytes) :
  In (OnMessage isBinary data) (snd (handleFrameData s c fr)) -> data <> [].
Proof.
  unfold handleFrameData.
  set (r := match buffered c with
            | None => _
            | Some bf => _
            end).
  destruct (fst r) as [|x d] eqn:E; simpl.
  - intros [].
  - destruct (msgHandler s); simpl; [|intros []].
    intros [H|[]]. injection H as _ <-. discriminate.
Qed.

Lemma handleControl_no_message (StatusNone : Z) (s : Server) (c c' : Conn)
      (fr : Frame) (evs : list Event) (isBinary : bool) (data : bytes) :
  handleControl StatusNone s c fr = Ret (c', evs) ->
  ~ In (OnMessage isBinary data) evs.
Proof.
  unfold handleControl, handlePing, handlePong, handleClose, WriteFrame, closeOnceDo.
  intros H Hin.
  repeat match type of H with
         | context [if ?b then _ else _] => destruct b; simpl in H
         | context [send ?ch ?x] => destruct (send ch x); simpl in H
         | context [close ?ch] => destruct (close ch); simpl in H
         end;
    try discriminate; injection H as <- <-; simpl in Hin;
    repeat destruct Hin as [Hin|Hin]; try discriminate; auto.
Qed.

Lemma handleFrame_nonempty (StatusNone : Z) (s : Server) (c c' : Conn)
      (fr : Frame) (evs : list Event) (isBinary : bool) (data : bytes) :
  handleFrame StatusNone s c fr = Ret (c', evs) ->
  In (OnMessage isBinary data) evs -> data <> [].
Proof.
  unfold handleFrame. intros H Hin.
  destruct (IsControl _).
  - exfalso. exact (handleControl_no_message _ _ _ _ _ _ _ _ H Hin).
  - injection H as H.
    change evs with (snd (c', evs)) in Hin. rewrite <- H in Hin.
    now apply handleFrameData_nonempty in Hin.
Qed.

Lemma with_buffered_same (c : Conn) : with_buffered (buffered c) c = c.
Proof. destruct c; reflexivity. Qed.

Lemma with_buffered_eq (c : Conn) (x : option bytes) :
  buffered c = x -> with_buffered x c = c.
Proof. intros <-. apply with_buffered_same. Qed.

Lemma handleFrame_data (StatusNone : Z) (s : Server) (c : Conn) (fr : Frame) :
  IsControl fr = false ->
  handleFrame StatusNone s c fr
  = Ret (handleFrameData s c (if IsMasked fr then Unmask fr else fr)).
Proof.
  intros H. unfold handleFrame.
  replace (IsControl (if IsMasked fr then Unmask fr else fr)) with (IsControl fr)
    by (destruct (IsMasked fr); reflexivity).
  now rewrite H.
Qed.

(** A data frame only touches the reassembly buffer: with [acc] the
    buffer extended by the frame's payload, the buffer is dropped and
    [acc] delivered when FIN is set, and [acc] is kept otherwise. *)
Lemma handleFrame_data_effect (StatusNone : Z) (s : Server) (c : Conn) (fr : Frame) :
  IsControl fr = false ->
  let acc := match buffered c with
             | None => clearPayload fr
             | Some bf => bf ++ clearPayload fr
             end in
  handleFrame StatusNone s c fr
  = Ret (with_buffered (if IsFin fr then None else Some acc) c,
         if IsFin fr && negb (Nat.eqb (length acc) 0) && msgHandler s
         then [OnMessage (Code fr =? CodeBinary) acc] else []).
Proof.
  intros H acc. rewrite (handleFrame_data _ _ _ _ H).
  unfold handleFrameData, clearPayload in *.
  set (fr' := if IsMasked fr then Unmask fr else fr) in *.
  assert (Hfin : IsFin fr' = IsFin fr) by (subst fr'; destruct (IsMasked fr); reflexivity).
  assert (Hcode : Code fr' = Code fr) by (subst fr'; destruct (IsMasked fr); reflexivity).
  rewrite Hfin, Hcode. subst acc.
  destruct (buffered c) as [bf|] eqn:Hb; destruct (IsFin fr); simpl;
    try reflexivity.
  - destruct (negb _ && msgHandler s); reflexivity.
  - rewrite (with_buffered_eq c None Hb).
    destruct (negb _ && msgHandler s); reflexivity.
Qed.

Lemma handleFrames_app (StatusNone : Z) (s : Server) (l1 l2 : list Frame) :
  forall c,
    handleFrames StatusNone s c (l1 ++ l2)
    = (r1 <- handleFrames StatusNone s c l1 ;;
       r2 <- handleFrames StatusNone s (fst r1) l2 ;;
       Ret (fst r2, snd r1 ++ snd r2)).
Proof.
  induction l1 as [|fr l1 IH]; intros c; simpl.
  - destruct (handleFrames StatusNone s c l2) as [[c2 e2]| |]; reflexivity.
  - destruct (handleFrame StatusNone s c fr) as [[c1 e1]| |]; simpl; try reflexivity.
    rewrite IH.
    destruct (handleFrames StatusNone s c1 l1) as [[c2 e2]| |]; simpl; try reflexivity.
    destruct (handleFrames StatusNone s c2 l2) as [[c3 e3]| |]; simpl; try reflexivity.
    now rewrite app_assoc.
Qed.

(** Non-final data frames pile up in the reassembly buffer and reach no
    callback. *)
Lemma handleFrames_buffering (StatusNone : Z) (s : Server) (frs : list Frame) :
  forall (c : Conn) (acc : bytes),
    buffered c = Some acc ->
    Forall (fun fr => IsControl fr = false /\ IsFin fr = false) frs ->
    handleFrames StatusNone s c frs
    = Ret (with_buffered (Some (acc ++ concat (map clearPayload frs))) c, []).
Proof.
  induction frs as [|fr frs IH]; intros c acc Hb Hall;
    cbn [handleFrames map concat].
  - rewrite app_nil_r. now rewrite (with_buffered_eq c (Some acc) Hb).
  - inversion Hall as [|? ? [Hctl Hfin] Hrest]; subst.
    rewrite (handleFrame_data_effect StatusNone s c fr Hctl).
    rewrite Hb, Hfin. cbn [andb bind fst snd].
    rewrite (IH _ (acc ++ clearPayload fr)); [|reflexivity|assumption].
    cbn [bind fst snd app]. now rewrite <- app_assoc.
Qed.

Lemma handleFrames_nonempty (StatusNone : Z) (s : Server) (frs : list Frame) :
  forall (c c' : Conn) (evs : list Event) (isBinary : bool) (data : bytes),
    handleFrames StatusNone s c frs = Ret (c', evs) ->
    In (OnMessage isBinary data) evs -> data <> [].
Proof.
  induction frs as [|fr frs IH]; intros c c' evs isBinary data; simpl.
  - intros [= <- <-] [].
  - destruct (handleFrame StatusNone s c fr) as [[c1 e1]| |] eqn:E1; simpl; try discriminate.
    destruct (handleFrames StatusNone s c1 frs) as [[c2 e2]| |] eqn:E2; simpl; try discriminate.
    intros [= <- <-] Hin. apply in_app_or in Hin as [Hin|Hin].
    + exact (handleFrame_nonempty _ _ _ _ _ _ _ _ E1 Hin).
    + exact (IH _ _ _ _ _ E2 Hin).
Qed.

(** C10: the message callback never sees zero-length data.  Whatever the
    frames handled, every message delivered is non-empty; and a final data
    frame that completes an empty message (a text or binary frame with
    FIN=1 and no payload, or a last fragment closing an empty buffer) is
    dropped without any callback. *)
Theorem empty_message_dropped (StatusNone : Z) (s : Server) :
  (forall (frs : list Frame) (c c' : Conn) (evs : list Event)
          (isBinary : bool) (data : bytes),
      handleFrames StatusNone s c frs = Ret (c', evs) ->
      In (OnMessage isBinary data) evs -> data <> []) /\
  (forall (c : Conn) (fr : Frame),
      IsControl fr = false ->
      IsFin fr = true ->
      match buffered c with
      | None => clearPayload fr
      | Some bf => bf ++ clearPayload fr
      end = [] ->
      handleFrame StatusNone s c fr = Ret (with_buffered None c, [])).
Proof.
  split.
  - intros frs. apply handleFrames_nonempty.
  - intros c fr Hctl Hfin Hempty.
    rewrite (handleFrame_data_effect StatusNone s c fr Hctl).
    cbv zeta. rewrite Hempty, Hfin. reflexivity.
Qed.

Lemma empty_message_dropped_witness :
  let s := mkServer [] EmptyString 0 true false true true true true true in
  let c := acquireConn (mkSocket [] [] false) in
  handleFrame 1000 s c (SetFin (SetText AcquireFrame)) = Ret (with_buffered None c, []) /\
  [104; 105] <> [].
Proof.
  intros s c.
  destruct (empty_message_dropped 1000 s) as [Hall Hdrop].
  split.
  - apply Hdrop; reflexivity.
  - apply (Hall [SetPayload [104; 105] (SetFin (SetText AcquireFrame))] c c
                [OnMessage false [104; 105]] false).
    + reflexivity.
    + simpl. auto.
Defined.

(** C3: for every received ping frame the default handler enqueues a pong
    frame with the same payload, FIN=1 and opcode pong; a registered ping
    callback is invoked with the payload as well, and the pong is enqueued
    whether or not one is registered. *)
Theorem ping_autoresponse (StatusNone : Z) (s : Server) (c : Conn) (fr : Frame) :
  IsPing fr = true ->
  has_room (output c) ->
  let data := clearPayload fr in
  let pong := SetFin (SetPayload data (SetCode CodePong AcquireFrame)) in
  handleFrame StatusNone s c fr
  = Ret (with_output (enq (output c) pong) c,
         if pingHandler s then [OnPing data] else []) /\
  queue (enq (output c) pong) = queue (output c) ++ [pong] /\
  Payload pong = data /\ IsFin pong = true /\ Code pong = CodePong /\
  IsPong pong = true.
Proof.
  intros Hping Hroom data pong. split; [|repeat split].
  unfold handleFrame. subst data pong. unfold clearPayload.
  set (fr' := if IsMasked fr then Unmask fr else fr).
  assert (Hcode : fr_code fr' = CodePing).
  { subst fr'. unfold IsPing in Hping. apply Z.eqb_eq in Hping.
    destruct (IsMasked fr); exact Hping. }
  unfold IsControl, handleControl, IsPing. rewrite Hcode. cbn [Z.leb Z.eqb Z.compare CodePing Pos.compare Pos.compare_cont Pos.eqb].
  unfold handlePing. rewrite (WriteFrame_has_room _ _ Hroom). reflexivity.
Qed.

Lemma ping_autoresponse_witness :
  let s := mkServer [] EmptyString 0 false false false false false false false in
  let c := acquireConn (mkSocket [] [] false) in
  let ping := mkFrame true 0 CodePing true [1; 2; 3; 4] [0; 0; 0] 0 in
  exists c',
    handleFrame 1000 s c ping = Ret (c', []) /\
    map Payload (queue (output c')) = [[1; 2; 3]].
Proof.
  intros s c ping.
  assert (Hroom : has_room (output c)) by (split; [reflexivity | cbn; lia]).
  destruct (ping_autoresponse 1000 s c ping eq_refl Hroom) as [H _].
  eexists. split; [exact H | reflexivity].
Defined.

(** ** Reassembly of fragmented messages *)

(** C1, as amended: a message sent as an initial text or binary frame with
    FIN=0 followed by continuation frames, the last with FIN=1, whose
    fragments are not all empty, reaches the message callback exactly once
    with the fragments' payloads concatenated in arrival order; for a
    message that starts with a text frame the binary flag is false. *)
Theorem fragmented_message_delivered (StatusNone : Z) (s : Server) (c : Conn)
        (first last : Frame) (middle : list Frame) :
  msgHandler s = true ->
  buffered c = None ->
  (Code first = CodeText \/ Code first = CodeBinary) ->
  IsFin first = false ->
  Forall (fun fr => Code fr = CodeContinuation /\ IsFin fr = false) middle ->
  Code last = CodeContinuation ->
  IsFin last = true ->
  let data := concat (map clearPayload (first :: middle ++ [last])) in
  data <> [] ->
  exists isBinary : bool,
    handleFrames StatusNone s c (first :: middle ++ [last])
    = Ret (c, [OnMessage isBinary data]) /\
    (Code first = CodeText -> isBinary = false).
Proof.
  intros Hmsg Hbuf Hfirst Hfin0 Hmid Hlast Hfin data Hdata.
  exists (Code last =? CodeBinary). split.
  2:{ intros _. rewrite Hlast. reflexivity. }
  assert (Hc1 : IsControl first = false).
  { unfold IsControl. unfold Code in Hfirst. destruct Hfirst as [-> | ->]; reflexivity. }
  assert (Hcl : IsControl last = false).
  { unfold IsControl. unfold Code in Hlast. rewrite Hlast. reflexivity. }
  assert (Hmid' : Forall (fun fr => IsControl fr = false /\ IsFin fr = false) middle).
  { eapply Forall_impl; [|exact Hmid]. intros fr [Hcode Hf]. split; [|exact Hf].
    unfold IsControl. unfold Code in Hcode. rewrite Hcode. reflexivity. }
  cbn [handleFrames].
  rewrite (handleFrame_data_effect StatusNone s c first Hc1).
  rewrite Hbuf, Hfin0. cbn [andb bind fst snd app].
  rewrite handleFrames_app.
  rewrite (handleFrames_buffering StatusNone s middle _ (clearPayload first));
    [|reflexivity|exact Hmid'].
  cbn [bind fst snd app handleFrames].
  rewrite (handleFrame_data_effect StatusNone s _ last Hcl).
  cbn [bind fst snd app buffered with_buffered].
  rewrite Hfin, Hmsg.
  assert (Hdata' : (clearPayload first ++ concat (map clearPayload middle))
                   ++ clearPayload last = data).
  { subst data. cbn [map concat]. rewrite map_app, concat_app. cbn [map concat].
    now rewrite app_nil_r, app_assoc. }
  rewrite Hdata'.
  destruct data as [|x d]; [congruence|].
  cbn [length Nat.eqb negb andb app].
  rewrite <- (with_buffered_eq c None Hbuf) at 2. reflexivity.
Qed.

Lemma fragmented_message_delivered_witness :
  let s := mkServer [] EmptyString 0 true false true true true true true in
  let c := acquireConn (mkSocket [] [] false) in
  let f0 := mkFrame false 0 CodeText false [0; 0; 0; 0] [72; 101; 108] 0 in
  let f1 := mkFrame false 0 CodeContinuation false [0; 0; 0; 0] [108; 111; 32] 0 in
  let f2 := mkFrame true 0 CodeContinuation false [0; 0; 0; 0] [119; 111; 114; 108; 100] 0 in
  handleFrames 1000 s c [f0; f1; f2]
  = Ret (c, [OnMessage false [72; 101; 108; 108; 111; 32; 119; 111; 114; 108; 100]]).
Proof.
  intros s c f0 f1 f2.
  destruct (fragmented_message_delivered 1000 s c f0 f2 [f1]) as [b [H Hb]].
  - reflexivity.
  - reflexivity.
  - left. reflexivity.
  - reflexivity.
  - repeat constructor.
  - reflexivity.
  - reflexivity.
  - discriminate.
  - rewrite (Hb eq_refl) in H. exact H.
Defined.

(** C1 as stated fails in two ways: a fragmented message whose fragments
    are all empty reaches no callback, and a fragmented message that
    starts with a binary frame is delivered with the binary flag off. *)
Lemma fragmented_message_counterexample :
  let s := mkServer [] EmptyString 0 true false true true true true true in
  let c := acquireConn (mkSocket [] [] false) in
  let e0 := mkFrame false 0 CodeText false [0; 0; 0; 0] [] 0 in
  let e1 := mkFrame true 0 CodeContinuation false [0; 0; 0; 0] [] 0 in
  let b0 := mkFrame false 0 CodeBinary false [0; 0; 0; 0] [1; 2] 0 in
  let b1 := mkFrame true 0 CodeContinuation false [0; 0; 0; 0] [3] 0 in
  handleFrames 1000 s c [e0; e1] = Ret (c, []) /\
  handleFrames 1000 s c [b0; b1] = Ret (c, [OnMessage false [1; 2; 3]]).
Proof. split; reflexivity. Qed.

(** C7, as amended: the default handler raises no protocol violation for
    a data frame.  Whatever the opcode, the frame's payload extends the
    reassembly buffer (an absent buffer counting as empty): a continuation
    frame met without a buffer starts or completes a message like an
    initial frame, and a text or binary frame met while a buffer is
    present is appended like a continuation.  Nothing is enqueued, and the
    closer latch, the error mailbox and the socket are left as they
    were. *)
Theorem data_frame_never_rejected (StatusNone : Z) (s : Server) (c : Conn) (fr : Frame) :
  IsControl fr = false ->
  let acc := match buffered c with
             | None => clearPayload fr
             | Some bf => bf ++ clearPayload fr
             end in
  exists (c' : Conn) (evs : list Event),
    handleFrame StatusNone s c fr = Ret (c', evs) /\
    output c' = output c /\ closer c' = closer c /\ closeOnce c' = closeOnce c /\
    errch c' = errch c /\ sock c' = sock c /\ input c' = input c /\
    buffered c' = (if IsFin fr then None else Some acc) /\
    (evs = [] \/ exists isBinary, evs = [OnMessage isBinary acc] /\ IsFin fr = true).
Proof.
  intros Hctl acc.
  rewrite (handleFrame_data_effect StatusNone s c fr Hctl). fold acc.
  eexists _, _. split; [reflexivity|]. repeat split.
  destruct (IsFin fr); cbn [andb]; [|left; reflexivity].
  destruct (negb _ && msgHandler s); [right|left; reflexivity].
  eexists. split; reflexivity.
Qed.

Lemma data_frame_never_rejected_witness :
  let s := mkServer [] EmptyString 0 true false true true true true true in
  let c := acquireConn (mkSocket [] [] false) in
  let fr := mkFrame true 0 CodeContinuation false [0; 0; 0; 0] [104; 105] 0 in
  exists c' evs,
    handleFrame 1000 s c fr = Ret (c', evs) /\ output c' = output c /\
    closer c' = closer c.
Proof.
  intros s c fr.
  destruct (data_frame_never_rejected 1000 s c fr eq_refl)
    as (c' & evs & H & Hout & Hcl & _).
  exists c', evs. auto.
Defined.

(** C7 as stated fails: a continuation frame that arrives while no
    message is in flight is delivered as a message, and a text frame that
    arrives in the middle of a fragmented message is appended to it; in
    both cases the outbound queue stays empty, nothing reaches the wire
    and the closer latch stays open. *)
Lemma data_frame_violation_counterexample :
  let s := mkServer [] EmptyString 0 true false true true true true true in
  let c := acquireConn (mkSocket [] [] false) in
  let cont := mkFrame true 0 CodeContinuation false [0; 0; 0; 0] [104; 105] 0 in
  let text := mkFrame true 0 CodeText false [0; 0; 0; 0] [33] 0 in
  (exists c',
      handleFrame 1000 s c cont = Ret (c', [OnMessage false [104; 105]]) /\
      queue (output c') = [] /\ wire (sock c') = [] /\
      queue (errch c') = [] /\ isClosed c' = false) /\
  (exists c',
      handleFrame 1000 s (with_buffered (Some [104; 105]) c) text
      = Ret (c', [OnMessage false [104; 105; 33]]) /\
      queue (output c') = [] /\ wire (sock c') = [] /\
      queue (errch c') = [] /\ isClosed c' = false).
Proof. split; eexists; repeat split. Qed.

(** ** The supervisor loop *)

(** What [serveConn] does once its loop has ended with cause [closeErr]:
    the close callback, then the socket. *)
Lemma serveConn_of_loop (StatusNone : Z) (s : Server) (sched : list SelectCase)
      (c c' : Conn) (closeErr : goerror) (evs : list Event) :
  serveLoop StatusNone s sched c = Some (Ret (closeErr, c', evs)) ->
  serveConn StatusNone s sched c
  = Some (Ret (sockClose c', evs ++ if closeHandler s then [OnClose closeErr] else [])).
Proof. intros H. unfold serveConn. now rewrite H. Qed.

(** C5, as amended: an error taken from the mailbox ends the loop when it
    is wrapped as a close-error (the wrapped error becomes the close
    cause), when it is a typed close [Error] (which becomes the close
    cause itself) and when it is nil (no cause); any other error goes to
    the error callback, when one is registered, and the loop goes on. *)
Theorem supervisor_mailbox (StatusNone : Z) (s : Server) (c : Conn)
        (err : goerror) (ch : chan goerror) (sched : list SelectCase) :
  recv (errch c) = Received err ch ->
  let c' := with_errch ch c in
  let closes cause :=
    serveLoop StatusNone s (CaseErrch :: sched) c = Some (Ret (cause, c', [])) /\
    serveConn StatusNone s (CaseErrch :: sched) c
    = Some (Ret (sockClose c', if closeHandler s then [OnClose cause] else [])) in
  match err with
  | Some (closeError e) => closes e
  | Some (Error status reason) => closes (Some (Error status reason))
  | None => closes None
  | Some (otherError msg) =>
      serveLoop StatusNone s (CaseErrch :: sched) c
      = match serveLoop StatusNone s sched c' with
        | Some (Ret (cause, c'', evs)) =>
            Some (Ret (cause, c'',
                       (if errHandler s then [OnError err] else []) ++ evs))
        | other => other
        end
  end.
Proof.
  intros Hrecv c' closes.
  assert (Hsel : serveSelect StatusNone s c CaseErrch
                 = Some (Ret match err with
                             | None => (Break None, c', [])
                             | Some (closeError e) => (Break e, c', [])
                             | Some (Error st rs) => (Break (Some (Error st rs)), c', [])
                             | Some (otherError m) =>
                                 (Continue, c', if errHandler s then [OnError err] else [])
                             end)).
  { unfold serveSelect. rewrite Hrecv. reflexivity. }
  destruct err as [[st rs|e|m]|]; subst closes; cbv beta;
    try (assert (Hloop : forall cause,
                    serveSelect StatusNone s c CaseErrch = Some (Ret (Break cause, c', [])) ->
                    serveLoop StatusNone s (CaseErrch :: sched) c = Some (Ret (cause, c', [])))
           by (intros cause Hc; cbn [serveLoop]; now rewrite Hc);
         split; [now apply Hloop | now rewrite (serveConn_of_loop _ _ _ _ _ _ _ (Hloop _ Hsel))]).
  cbn [serveLoop]. rewrite Hsel. reflexivity.
Qed.

Lemma supervisor_mailbox_witness :
  let s := mkServer [] EmptyString 0 true false true true true true true in
  let c0 := acquireConn (mkSocket [] [] false) in
  let cause := Some (otherError "unexpected EOF") in
  let c := with_errch (mkChan 2 [Some (closeError cause)] false) c0 in
  serveConn 1000 s [CaseErrch] c
  = Some (Ret (sockClose (with_errch (mkChan 2 [] false) c), [OnClose cause])).
Proof.
  intros s c0 cause c.
  exact (proj2 (supervisor_mailbox 1000 s c (Some (closeError cause))
                                   (mkChan 2 [] false) [] eq_refl)).
Defined.

(** C5 as stated fails: a typed close [Error], which is not wrapped as a
    close-error, ends the loop and becomes the close cause without the
    error callback being invoked; so does a nil error. *)
Lemma supervisor_mailbox_counterexample :
  let s := mkServer [] EmptyString 0 true false true true true true true in
  let c0 := acquireConn (mkSocket [] [] false) in
  let e := Some (Error 1001 [98; 121; 101]) in
  (exists c',
      serveConn 1000 s [CaseErrch] (with_errch (mkChan 2 [e] false) c0)
      = Some (Ret (c', [OnClose e]))) /\
  (exists c',
      serveConn 1000 s [CaseErrch] (with_errch (mkChan 2 [None] false) c0)
      = Some (Ret (c', [OnClose None]))).
Proof. split; eexists; reflexivity. Qed.

(** ** Close handshake *)

Lemma Status_SetStatus (StatusNone status : Z) (fr : Frame) :
  0 <= status < 65536 -> Status StatusNone (SetStatus status fr) = status.
Proof.
  intros H. unfold Status, SetStatus. cbn [fr_b].
  rewrite (Z.mod_small (status / 256) 256).
  - pose proof (Z.div_mod status 256). lia.
  - split; [apply Z.div_pos; lia | apply Z.div_lt_upper_bound; lia].
Qed.

Lemma isClosed_false (c : Conn) :
  isClosed c = false <-> queue (closer c) = [] /\ closed (closer c) = false.
Proof.
  unfold isClosed, recv.
  destruct (queue (closer c)); [destruct (closed (closer c))|];
    split; intros H; try discriminate; try (destruct H; discriminate); auto.
Qed.

Lemma closeOnceDo_first (c : Conn) :
  closeOnce c = false ->
  closed (closer c) = false ->
  closeOnceDo c
  = Ret (with_closer (mkChan (cap (closer c)) (queue (closer c)) true) true c,
         [CloserClosed]).
Proof.
  intros Honce Hopen. unfold closeOnceDo, close. now rewrite Honce, Hopen.
Qed.

Lemma handleFrame_close (StatusNone : Z) (s : Server) (c : Conn) (fr : Frame) :
  IsClose fr = true ->
  has_room (errch c) ->
  has_room (output c) ->
  closeOnce c = false ->
  closed (closer c) = false ->
  let fr' := if IsMasked fr then Unmask fr else fr in
  let status := Status StatusNone fr' in
  let err := if negb (status =? StatusNone)
             then Some (Error status (clearPayload fr)) else None in
  let reply := SetFin (SetStatus status (SetClose AcquireFrame)) in
  handleFrame StatusNone s c fr = Ret (afterPeerClose c err reply, [CloserClosed]).
Proof.
  intros Hclose Herr Hout Honce Hopen fr' status err reply.
  unfold handleFrame. fold fr'.
  assert (Hcode : fr_code fr' = CodeClose).
  { subst fr'. unfold IsClose in Hclose. apply Z.eqb_eq in Hclose.
    destruct (IsMasked fr); exact Hclose. }
  unfold IsControl, handleControl, IsPing, IsPong, IsClose. rewrite Hcode.
  cbn [CodeClose CodePing CodePong Z.leb Z.eqb Z.compare Pos.compare Pos.compare_cont Pos.eqb].
  unfold handleClose. fold status. unfold clearPayload in err. fold fr' in err. fold err.
  rewrite (send_has_room _ err Herr). cbn [bind].
  rewrite WriteFrame_has_room by exact Hout.
  cbn [bind]. rewrite closeOnceDo_first by assumption. reflexivity.
Qed.

(** C2, as amended: when the supervisor finds in its inbound queue a close
    frame with status [S] (not the "none" sentinel) and reason [R], a reply
    close frame with FIN=1 and status [S] is enqueued, and the close
    callback runs exactly once.  Its argument is the error ([S], [R]) on
    the runs where the next [select] takes the error mailbox, and nil on
    the runs where it takes the closer latch, which [handleClose] has
    closed by then; there are no other runs. *)
Theorem peer_close_handshake (StatusNone : Z) (s : Server) (c : Conn) (fr : Frame)
        (S : Z) (R : bytes) :
  frHandler s = false ->
  closeHandler s = true ->
  queue (input c) = [fr] ->
  closed (input c) = false ->
  IsClose fr = true ->
  Status StatusNone (if IsMasked fr then Unmask fr else fr) = S ->
  S <> StatusNone ->
  0 <= S < 65536 ->
  clearPayload fr = R ->
  queue (errch c) = [] ->
  has_room (errch c) ->
  has_room (output c) ->
  isClosed c = false ->
  closeOnce c = false ->
  let reply := SetFin (SetStatus S (SetClose AcquireFrame)) in
  let replied c' :=
    queue (output c') = queue (output c) ++ [reply] /\ isClosed c' = true in
  (IsClose reply = true /\ IsFin reply = true /\ Status StatusNone reply = S) /\
  (forall rest, exists c',
      serveConn StatusNone s (CaseInput :: CaseErrch :: rest) c
      = Some (Ret (c', [CloserClosed; OnClose (Some (Error S R))])) /\ replied c') /\
  (forall rest, exists c',
      serveConn StatusNone s (CaseInput :: CaseCloser :: rest) c
      = Some (Ret (c', [CloserClosed; OnClose None])) /\ replied c') /\
  (forall sched r,
      serveConn StatusNone s sched c = Some r ->
      exists rest, sched = CaseInput :: CaseErrch :: rest \/
                   sched = CaseInput :: CaseCloser :: rest).
Proof.
  intros Hfr Hch Hin Hinopen Hclose HS Hnone Hrange HR Hmail Herr Hout Hlatch Honce
         reply replied.
  apply isClosed_false in Hlatch as [Hlq Hlopen].
  set (err := Some (Error S R)).
  set (c0 := with_input (mkChan (cap (input c)) [] (closed (input c))) c).
  assert (Hstep : serveSelect StatusNone s c CaseInput
                  = Some (Ret (Continue, afterPeerClose c0 err reply, [CloserClosed]))).
  { unfold serveSelect, recv. rewrite Hin. fold c0. unfold callFrHandler. rewrite Hfr.
    rewrite (handleFrame_close StatusNone s c0 fr Hclose Herr Hout Honce Hlopen).
    cbv zeta. rewrite HS, HR.
    apply Z.eqb_neq in Hnone. rewrite Hnone. reflexivity. }
  set (c1 := afterPeerClose c0 err reply) in *.
  assert (Hmb : serveSelect StatusNone s c1 CaseErrch
                = Some (Ret (Break err,
                             with_errch (mkChan (cap (errch c)) [] (closed (errch c))) c1,
                             []))).
  { unfold serveSelect, recv. subst c1 c0. cbn. rewrite Hmail. reflexivity. }
  assert (Hlt : serveSelect StatusNone s c1 CaseCloser = Some (Ret (Break None, c1, []))).
  { unfold serveSelect, recv. subst c1 c0. cbn. rewrite Hlq. reflexivity. }
  assert (Hnoin : serveSelect StatusNone s c1 CaseInput = None).
  { unfold serveSelect, recv. subst c1 c0. cbn. rewrite Hinopen. reflexivity. }
  assert (Hnoerr : serveSelect StatusNone s c CaseErrch = None).
  { unfold serveSelect, recv. rewrite Hmail. destruct Herr as [-> _]. reflexivity. }
  assert (Hnolatch : serveSelect StatusNone s c CaseCloser = None).
  { unfold serveSelect, recv. rewrite Hlq, Hlopen. reflexivity. }
  split; [|split; [|split]].
  - repeat split.
    exact (Status_SetStatus StatusNone S (SetClose AcquireFrame) Hrange).
  - intros rest. eexists. split.
    + unfold serveConn. cbn [serveLoop]. rewrite Hstep, Hmb, Hch. reflexivity.
    + split; [reflexivity|]. unfold isClosed, recv. cbn. rewrite Hlq. reflexivity.
  - intros rest. eexists. split.
    + unfold serveConn. cbn [serveLoop]. rewrite Hstep, Hlt, Hch. reflexivity.
    + split; [reflexivity|]. unfold isClosed, recv. cbn. rewrite Hlq. reflexivity.
  - intros sched r. unfold serveConn.
    destruct sched as [|[| |] sched]; cbn [serveLoop];
      rewrite ?Hstep, ?Hnoerr, ?Hnolatch; try discriminate.
    destruct sched as [|[| |] rest]; cbn [serveLoop];
      rewrite ?Hnoin; try discriminate; intros _; eexists; eauto.
Qed.

Lemma peer_close_handshake_witness :
  let s := mkServer [] EmptyString 0 true false true true true true true in
  let c0 := acquireConn (mkSocket [] [] false) in
  let fr := mkFrame true 0 CodeClose false [0; 0; 0; 0] [3; 233; 98; 121; 101] 0 in
  let c := with_input (mkChan 128 [fr] false) c0 in
  exists c',
    serveConn 1000 s [CaseInput; CaseErrch] c
    = Some (Ret (c', [CloserClosed; OnClose (Some (Error 1001 [98; 121; 101]))])) /\
    map (Status 1000) (queue (output c')) = [1001].
Proof.
  intros s c0 fr c.
  assert (Hroom1 : has_room (errch c)) by (split; [reflexivity | cbn; lia]).
  assert (Hroom2 : has_room (output c)) by (split; [reflexivity | cbn; lia]).
  assert (Hne : 1001 <> 1000) by lia.
  assert (Hrange : 0 <= 1001 < 65536) by lia.
  destruct (peer_close_handshake 1000 s c fr 1001 [98; 121; 101]
              eq_refl eq_refl eq_refl eq_refl eq_refl eq_refl Hne Hrange
              eq_refl eq_refl Hroom1 Hroom2 eq_refl eq_refl)
    as (_ & Herr & _ & _).
  destruct (Herr []) as (c' & Hrun & Hq & _).
  exists c'. split; [exact Hrun|]. rewrite Hq. reflexivity.
Defined.

(** C2 as stated fails: after a close frame with status 1001 and reason
    "bye", the run in which the supervisor's next [select] takes the
    closer latch hands nil to the close callback. *)
Lemma peer_close_handshake_counterexample :
  let s := mkServer [] EmptyString 0 true false true true true true true in
  let c0 := acquireConn (mkSocket [] [] false) in
  let fr := mkFrame true 0 CodeClose false [0; 0; 0; 0] [3; 233; 98; 121; 101] 0 in
  let c := with_input (mkChan 128 [fr] false) c0 in
  exists c',
    serveConn 1000 s [CaseInput; CaseCloser] c
    = Some (Ret (c', [CloserClosed; OnClose None])).
Proof. eexists. reflexivity. Qed.

(** ** Local close *)

Lemma CloseDetail_closed (c : Conn) (status : Z) (reason : bytes) :
  isClosed c = true -> CloseDetail c status reason = Ret (c, []).
Proof. intros H. unfold CloseDetail. now rewrite H. Qed.

Lemma CloseDetail_seq_closed (c : Conn) (calls : list (Z * bytes)) :
  isClosed c = true -> CloseDetail_seq c calls = Ret (c, []).
Proof.
  intros H. induction calls as [|[status reason] calls IH]; cbn [CloseDetail_seq].
  - reflexivity.
  - rewrite (CloseDetail_closed c status reason H). cbn [bind fst snd].
    rewrite IH. reflexivity.
Qed.

Lemma CloseDetail_open (c : Conn) (status : Z) (reason : bytes) :
  isClosed c = false ->
  closeOnce c = false ->
  has_room (output c) ->
  let fr := Write reason (SetFin (SetStatus status (SetClose AcquireFrame))) in
  let c1 := with_output (enq (output c) fr) c in
  CloseDetail c status reason
  = Ret (with_closer (mkChan (cap (closer c)) (queue (closer c)) true) true c1,
         [CloserClosed]).
Proof.
  intros Hlatch Honce Hroom fr c1. unfold CloseDetail. rewrite Hlatch. cbn [negb].
  rewrite WriteFrame_has_room by exact Hroom. cbn [bind].
  apply isClosed_false in Hlatch as [_ Hopen].
  now rewrite closeOnceDo_first.
Qed.

Lemma handleControl_no_close (StatusNone : Z) (s : Server) (c c' : Conn)
      (fr : Frame) (evs : list Event) :
  handleControl StatusNone s c fr = Ret (c', evs) -> filter isOnClose evs = [].
Proof.
  unfold handleControl, handlePing, handlePong, handleClose, WriteFrame, closeOnceDo.
  intros H.
  repeat match type of H with
         | context [if ?b then _ else _] => destruct b; simpl in H
         | context [send ?ch ?x] => destruct (send ch x); simpl in H
         | context [close ?ch] => destruct (close ch); simpl in H
         end;
    try discriminate; injection H as <- <-; reflexivity.
Qed.

Lemma callFrHandler_no_close (StatusNone : Z) (s : Server) (c c' : Conn)
      (fr : Frame) (evs : list Event) :
  callFrHandler StatusNone s c fr = Ret (c', evs) -> filter isOnClose evs = [].
Proof.
  unfold callFrHandler, handleFrame. destruct (frHandler s).
  - intros [= <- <-]. reflexivity.
  - destruct (IsControl _).
    + apply handleControl_no_close.
    + unfold handleFrameData. destruct (negb _ && msgHandler s); intros [= <- <-]; reflexivity.
Qed.

Lemma serveSelect_no_close (StatusNone : Z) (s : Server) (c c' : Conn)
      (k : SelectCase) (ctl : LoopCtl) (evs : list Event) :
  serveSelect StatusNone s c k = Some (Ret (ctl, c', evs)) ->
  filter isOnClose evs = [].
Proof.
  unfold serveSelect. destruct k.
  - destruct (recv (input c)) as [fr ch| |]; try discriminate.
    destruct (callFrHandler StatusNone s (with_input ch c) fr) as [[c1 e1]| |] eqn:E;
      cbn [bind fst snd]; try discriminate.
    intros [= <- <- <-]. exact (callFrHandler_no_close _ _ _ _ _ _ E).
  - destruct (recv (errch c)) as [err ch| |]; try discriminate.
    + destruct err as [[st rs|e|m]|]; intros [= <- <- <-]; try reflexivity.
      destruct (errHandler s); reflexivity.
    + intros [= <- <- <-]. reflexivity.
  - destruct (recv (closer c)) as [u ch| |]; try discriminate;
      intros [= <- <- <-]; reflexivity.
Qed.

Lemma serveLoop_no_close (StatusNone : Z) (s : Server) (sched : list SelectCase) :
  forall (c c' : Conn) (cause : goerror) (evs : list Event),
    serveLoop StatusNone s sched c = Some (Ret (cause, c', evs)) ->
    filter isOnClose evs = [].
Proof.
  induction sched as [|k sched IH]; intros c c' cause evs; cbn [serveLoop].
  - discriminate.
  - destruct (serveSelect StatusNone s c k) as [[[[ctl c1] e1]| |]|] eqn:E;
      try discriminate.
    pose proof (serveSelect_no_close _ _ _ _ _ _ _ E) as H1.
    destruct ctl as [|cause1].
    + destruct (serveLoop StatusNone s sched c1) as [[[[cause2 c2] e2]| |]|] eqn:E2;
        try discriminate.
      intros [= <- <- <-]. rewrite filter_app, H1.
      exact (IH _ _ _ _ E2).
    + intros [= <- <- <-]. exact H1.
Qed.

(** Every completed run of [serveConn] makes exactly one call of a
    registered close callback. *)
Lemma serveConn_one_close (StatusNone : Z) (s : Server) (sched : list SelectCase)
      (c c' : Conn) (evs : list Event) :
  closeHandler s = true ->
  serveConn StatusNone s sched c = Some (Ret (c', evs)) ->
  length (filter isOnClose evs) = 1%nat.
Proof.
  intros Hreg. unfold serveConn.
  destruct (serveLoop StatusNone s sched c) as [[[[cause c1] e1]| |]|] eqn:E;
    try discriminate.
  intros [= <- <-]. rewrite filter_app, (serveLoop_no_close _ _ _ _ _ _ _ E), Hreg.
  reflexivity.
Qed.

(** C4: [n >= 1] sequential local closes of a live connection enqueue
    exactly one close frame (the one of the first call), close the closer
    latch exactly once, and the supervisor then makes exactly one call of
    the close callback. *)
Theorem local_close_idempotent (StatusNone : Z) (s : Server) (c : Conn)
        (status : Z) (reason : bytes) (calls : list (Z * bytes)) :
  isClosed c = false ->
  closeOnce c = false ->
  has_room (output c) ->
  closeHandler s = true ->
  let fr := Write reason (SetFin (SetStatus status (SetClose AcquireFrame))) in
  exists c1,
    CloseDetail_seq c ((status, reason) :: calls) = Ret (c1, [CloserClosed]) /\
    queue (output c1) = queue (output c) ++ [fr] /\
    IsClose fr = true /\
    isClosed c1 = true /\
    (forall sched c2 evs,
        serveConn StatusNone s sched c1 = Some (Ret (c2, evs)) ->
        length (filter isOnClose evs) = 1%nat) /\
    (exists c2,
        serveConn StatusNone s [CaseCloser] c1 = Some (Ret (c2, [OnClose None]))).
Proof.
  intros Hlatch Honce Hroom Hreg fr.
  pose proof (CloseDetail_open c status reason Hlatch Honce Hroom) as H1.
  cbv zeta in H1. fold fr in H1.
  set (c1 := with_closer _ true _) in H1.
  assert (Hc1 : isClosed c1 = true).
  { apply isClosed_false in Hlatch as [Hq _].
    unfold isClosed, recv. subst c1. cbn. rewrite Hq. reflexivity. }
  exists c1. split; [|split; [|split; [|split; [|split]]]].
  - cbn [CloseDetail_seq]. rewrite H1. cbn [bind fst snd].
    rewrite (CloseDetail_seq_closed c1 calls Hc1). reflexivity.
  - reflexivity.
  - reflexivity.
  - exact Hc1.
  - intros sched c2 evs. apply serveConn_one_close. exact Hreg.
  - apply isClosed_false in Hlatch as [Hq _]. eexists.
    unfold serveConn. cbn [serveLoop]. unfold serveSelect, recv.
    subst c1. cbn. rewrite Hq, Hreg. reflexivity.
Qed.

Lemma local_close_idempotent_witness :
  let s := mkServer [] EmptyString 0 true false true true true true true in
  let c := acquireConn (mkSocket [] [] false) in
  exists c1,
    CloseDetail_seq c [(1000, []); (1001, [98; 121; 101]); (1000, [])]
    = Ret (c1, [CloserClosed]) /\
    map Code (queue (output c1)) = [CodeClose].
Proof.
  intros s c.
  assert (Hroom : has_room (output c)) by (split; [reflexivity | cbn; lia]).
  destruct (local_close_idempotent 1000 s c 1000 [] [(1001, [98; 121; 101]); (1000, [])]
              eq_refl eq_refl Hroom eq_refl)
    as (c1 & Hrun & Hq & _).
  exists c1. split; [exact Hrun|]. rewrite Hq. reflexivity.
Defined.

(** ** The writer task *)

(** A close frame taken from the outbound queue ends the writer right
    after the write, whether or not the write succeeded. *)
Lemma writeLoop_exits_after_close_frame (c : Conn) (fr : Frame) (ch : chan Frame)
      (sched : list WriterCase) :
  recv (output c) = Received fr ch ->
  IsClose fr = true ->
  closed (errch c) = false ->
  exists c', writeLoop (WCaseOutput :: sched) c = Some (WExit c').
Proof.
  intros Hrecv Hclose Hopen. cbn [writeLoop]. rewrite Hrecv, Hclose.
  destruct (writeFrame (with_output ch c) fr) as [c1 [e|]] eqn:E; cbn [fst snd].
  - assert (Herr : errch c1 = errch c).
    { unfold writeFrame in E. cbn in E.
      destruct (sock_closed (sock c)); [injection E as <- _; reflexivity|].
      destruct (faults (sock c)) as [|[|] rest]; injection E as <- _; reflexivity. }
    unfold try_send. rewrite Herr, Hopen.
    destruct (_ <? _)%nat; cbn [bind]; eexists; reflexivity.
  - eexists; reflexivity.
Qed.

Lemma writeFrame_healthy (c : Conn) (fr : Frame) :
  sock_closed (sock c) = false ->
  faults (sock c) = [] ->
  writeFrame c fr
  = (with_sock (mkSocket (wire (sock c) ++ [SetPayloadSize (MaxPayloadSize c) fr])
                         [] false) c,
     None).
Proof. intros Hsock Hfaults. unfold writeFrame. now rewrite Hsock, Hfaults. Qed.

Lemma flushLoop_step (iters : nat) (c : Conn) (fr : Frame) (ch : chan Frame) :
  recv (output c) = Received fr ch ->
  flushLoop (S iters) c
  = match snd (writeFrame (with_output ch c) fr) with
    | Some _ => WExit (wgDone (fst (writeFrame (with_output ch c) fr)))
    | None => flushLoop iters (fst (writeFrame (with_output ch c) fr))
    end.
Proof. intros H. cbn [flushLoop]. now rewrite H. Qed.

(** On a healthy socket the loop that follows the latch writes the frames
    of the outbound queue, in order, and then waits for one frame more:
    it runs [len(c.output) + 1] receives on a channel that is never
    closed. *)
Lemma flushLoop_drains_then_parks (q : list Frame) :
  forall c : Conn,
    queue (output c) = q ->
    closed (output c) = false ->
    sock_closed (sock c) = false ->
    faults (sock c) = [] ->
    flushLoop (S (length q)) c
    = WParked
        (with_sock
           (mkSocket (wire (sock c) ++ map (SetPayloadSize (MaxPayloadSize c)) q)
                     [] false)
           (with_output (mkChan (cap (output c)) [] false) c)).
Proof.
  induction q as [|fr q IH]; intros c Hq Hopen Hsock Hfaults.
  - cbn [flushLoop length]. unfold recv. rewrite Hq, Hopen. f_equal.
    destruct c as [[w f sc] i [ocap oq ocl] cl once e b n rt wt mx g cx].
    cbn in *. subst. now rewrite app_nil_r.
  - change (length (fr :: q)) with (S (length q)).
    rewrite (flushLoop_step (S (length q)) c fr
                            (mkChan (cap (output c)) q (closed (output c))))
      by (unfold recv; now rewrite Hq).
    rewrite writeFrame_healthy by assumption. cbn [fst snd].
    rewrite IH by (try reflexivity; assumption).
    cbn [sock with_sock with_output output MaxPayloadSize wire cap map].
    rewrite Hopen, <- app_assoc. reflexivity.
Qed.

Lemma writeLoop_latch_parks (c : Conn) (sched : list WriterCase) :
  recv (closer c) = RecvClosed ->
  closed (output c) = false ->
  sock_closed (sock c) = false ->
  faults (sock c) = [] ->
  writeLoop (WCaseCloser :: sched) c
  = Some (WParked
            (with_sock
               (mkSocket (wire (sock c)
                          ++ map (SetPayloadSize (MaxPayloadSize c)) (queue (output c)))
                         [] false)
               (with_output (mkChan (cap (output c)) [] false) c))).
Proof.
  intros Hlatch Hopen Hsock Hfaults. cbn [writeLoop]. rewrite Hlatch.
  unfold len. now rewrite (flushLoop_drains_then_parks (queue (output c)) c).
Qed.

(** C6, evaluated on the code: a peer close is handled on a fresh
    connection, so the reply sits in the outbound queue when the latch
    closes.  The writer whose [select] takes the latch writes the reply and
    then stays parked in one more receive on the empty outbound queue; it
    does not return and never reaches [wg.Done]. *)
Theorem writer_parks_after_latch_drain :
  let s := mkServer [] EmptyString 0 true false true true true true true in
  let c0 := acquireConn (mkSocket [] [] false) in
  let fr := mkFrame true 0 CodeClose false [0; 0; 0; 0] [3; 233; 98; 121; 101] 0 in
  let reply := SetFin (SetStatus 1001 (SetClose AcquireFrame)) in
  exists c1 c2,
    handleFrame 1000 s c0 fr = Ret (c1, [CloserClosed]) /\
    queue (output c1) = [reply] /\
    isClosed c1 = true /\
    writeLoop [WCaseCloser] c1 = Some (WParked c2) /\
    wire (sock c2) = [SetPayloadSize DefaultPayloadSize reply] /\
    queue (output c2) = [] /\ closed (output c2) = false /\
    wg c2 = 2%nat.
Proof.
  intros s c0 fr reply. eexists _, _.
  split; [reflexivity|]. split; [reflexivity|]. split; [reflexivity|].
  split; [apply writeLoop_latch_parks; reflexivity|].
  repeat split.
Qed.

(** ** The older revision *)

(** [ServerConn.Close] on a live connection does nothing at all: no close
    frame, and the latch stays open. *)
Lemma Legacy_Close_open (c : Conn) : isClosed c = false -> Legacy.Close c = Ret c.
Proof.
  intros H. apply isClosed_false in H as [Hq Hopen].
  unfold Legacy.Close, recv. now rewrite Hq, Hopen.
Qed.

(** On a connection whose latch is closed it closes the latch again. *)
Lemma Legacy_Close_closed (c : Conn) :
  recv (closer c) = RecvClosed -> Legacy.Close c = Panics.
Proof.
  intros H. unfold Legacy.Close. rewrite H. unfold recv in H.
  destruct (queue (closer c)); [|discriminate].
  unfold close. destruct (closed (closer c)); [reflexivity|discriminate].
Qed.

(** The older writer returns as soon as it sees the latch, leaving the
    outbound queue unwritten. *)
Lemma Legacy_writeLoop_latch (c : Conn) (sched : list WriterCase) :
  recv (closer c) = RecvClosed ->
  Legacy.writeLoop (WCaseCloser :: sched) c = Some (WExit (wgDone c)).
Proof. intros H. cbn [Legacy.writeLoop]. now rewrite H. Qed.

(** In the older supervisor only a close-error ends the loop; a typed close
    [Error] is reported to the error callback like any other error. *)
Lemma Legacy_serveSelect_mailbox (StatusNone : Z) (s : Server) (c : Conn)
      (err : goerror) (ch : chan goerror) :
  recv (errch c) = Received err ch ->
  Legacy.serveSelect StatusNone s c CaseErrch
  = Some (Ret match err with
              | Some (closeError e) => (Break e, with_errch ch c, [])
              | _ => (Continue, with_errch ch c,
                      if errHandler s then [OnError err] else [])
              end).
Proof. intros H. unfold Legacy.serveSelect. now rewrite H. Qed.

(** In the older handler a registered ping callback takes the place of the
    pong reply. *)
Lemma Legacy_ping_callback_replaces_pong (StatusNone : Z) (s : Server) (c : Conn)
      (fr : Frame) :
  IsPing fr = true ->
  pingHandler s = true ->
  Legacy.handleFrame StatusNone s c fr = Ret (c, [OnPing (Payload fr)]).
Proof.
  intros Hping Hreg. unfold Legacy.handleFrame, Legacy.handleControl, IsControl.
  rewrite Hping. unfold IsPing in Hping. apply Z.eqb_eq in Hping. rewrite Hping.
  cbn [CodePing Z.leb Z.compare Pos.compare Pos.compare_cont].
  unfold Legacy.callPingHandler. now rewrite Hreg.
Qed.

(** * Further properties of the pipeline *)

(** ** The writer's main loop *)

Lemma writeFrame_false_fault (c : Conn) (fr : Frame) (rest : list bool) :
  sock_closed (sock c) = false ->
  faults (sock c) = false :: rest ->
  writeFrame c fr
  = (with_sock (mkSocket (wire (sock c) ++ [SetPayloadSize (MaxPayloadSize c) fr])
                         rest false) c,
     None).
Proof. intros Hsock Hfaults. unfold writeFrame. now rewrite Hsock, Hfaults. Qed.

Lemma writeFrame_true_fault (c : Conn) (fr : Frame) (rest : list bool) :
  sock_closed (sock c) = false ->
  faults (sock c) = true :: rest ->
  writeFrame c fr
  = (with_sock (mkSocket (wire (sock c)) rest false) c,
     Some (otherError "write failed")).
Proof. intros Hsock Hfaults. unfold writeFrame. now rewrite Hsock, Hfaults. Qed.

Lemma writeLoop_step (c : Conn) (fr : Frame) (ch : chan Frame)
      (sched : list WriterCase) :
  recv (output c) = Received fr ch ->
  IsClose fr = false ->
  snd (writeFrame (with_output ch c) fr) = None ->
  writeLoop (WCaseOutput :: sched) c
  = writeLoop sched (fst (writeFrame (with_output ch c) fr)).
Proof.
  intros Hrecv Hclose Hok. cbn [writeLoop]. rewrite Hrecv, Hok, Hclose. reflexivity.
Qed.



(** The writer returns right after the first close frame of the outbound
    queue: the frames ahead of it and the close frame itself are written,
    and whatever was enqueued behind it stays in the queue, unwritten. *)
Theorem writeLoop_stops_at_close (q : list Frame) :
  forall (cl : Frame) (rest : list Frame) (c : Conn) (sched : list WriterCase),
    queue (output c) = q ++ cl :: rest ->
    Forall (fun fr => IsClose fr = false) q ->
    IsClose cl = true ->
    sock_closed (sock c) = false ->
    faults (sock c) = [] ->
    writeLoop (repeat WCaseOutput (length q) ++ WCaseOutput :: sched) c
    = Some (WExit (wgDone
        (with_sock
           (mkSocket (wire (sock c)
                      ++ map (SetPayloadSize (MaxPayloadSize c)) (q ++ [cl]))
                     [] false)
           (with_output (mkChan (cap (output c)) rest (closed (output c))) c)))).
Proof.
  induction q as [|fr q IH]; intros cl rest c sched Hq Hall Hcl Hsock Hfaults.
  - cbn [length repeat app map writeLoop]. unfold recv. rewrite Hq.
    cbn [app]. cbn iota.
    rewrite writeFrame_healthy by assumption. cbn [fst snd]. rewrite Hcl.
    reflexivity.
  - inversion Hall as [|? ? Hfr Hrest]; subst.
    cbn [length repeat app].
    rewrite (writeLoop_step c fr
               (mkChan (cap (output c)) (q ++ cl :: rest) (closed (output c))));
      [ | unfold recv; now rewrite Hq | exact Hfr
        | now rewrite writeFrame_healthy ].
    rewrite writeFrame_healthy by assumption. cbn [fst].
    rewrite (IH cl rest); try assumption; try reflexivity.
    cbn [sock with_sock with_output output MaxPayloadSize wire cap closed map app].
    now rewrite <- app_assoc.
Qed.

Lemma writeLoop_stops_at_close_witness :
  let c0 := acquireConn (mkSocket [] [] false) in
  let f1 := SetPayload [1] (SetText AcquireFrame) in
  let cl := SetFin (SetClose AcquireFrame) in
  let f2 := SetPayload [2] (SetText AcquireFrame) in
  let c := with_output (mkChan 128 [f1; cl; f2] false) c0 in
  exists c', writeLoop [WCaseOutput; WCaseOutput; WCaseOutput] c = Some (WExit c') /\
             map Code (wire (sock c')) = [CodeText; CodeClose] /\
             queue (output c') = [f2].
Proof.
  intros c0 f1 cl f2 c.
  pose proof (writeLoop_stops_at_close [f1] cl [f2] c [WCaseOutput] eq_refl) as H.
  eexists. split.
  - apply H; [repeat constructor | reflexivity | reflexivity | reflexivity].
  - split; reflexivity.
Defined.



(** ** The writer's drain after the latch *)

Lemma flushLoop_failed_write (k : nat) :
  forall (iters : nat) (q : list Frame) (c : Conn) (fs : list bool),
    faults (sock c) = repeat false k ++ true :: fs ->
    sock_closed (sock c) = false ->
    queue (output c) = q ->
    (k < length q)%nat ->
    (k < iters)%nat ->
    flushLoop iters c
    = WExit (wgDone
        (with_sock
           (mkSocket (wire (sock c)
                      ++ map (SetPayloadSize (MaxPayloadSize c)) (firstn k q))
                     fs false)
           (with_output (mkChan (cap (output c)) (skipn (S k) q) (closed (output c)))
                        c))).
Proof.
  induction k as [|k IH]; intros iters q c fs Hf Hsock Hq Hlen Hit;
    (destruct iters as [|iters]; [lia|]);
    (destruct q as [|fr q]; [cbn in Hlen; lia|]);
    rewrite (flushLoop_step iters c fr (mkChan (cap (output c)) q (closed (output c))))
      by (unfold recv; now rewrite Hq).
  - rewrite (writeFrame_true_fault _ fr fs) by assumption. cbn [fst snd].
    cbn [firstn skipn map sock with_sock with_output wire].
    now rewrite app_nil_r.
  - rewrite (writeFrame_false_fault _ fr (repeat false k ++ true :: fs))
      by assumption.
    cbn [fst snd].
    rewrite (IH iters q _ fs); try reflexivity; cbn in Hlen; try lia.
    cbn [sock with_sock with_output output MaxPayloadSize wire cap closed
         firstn skipn map].
    now rewrite <- app_assoc.
Qed.

(** The drain is best effort: it stops at the first write that fails.
    The frames written before the failure are on the wire, the frame whose
    write failed is lost, the frames behind it stay in the queue, and the
    writer returns. *)
Theorem flushLoop_stops_at_failure (k : nat) (c : Conn) (fs : list bool) :
  recv (closer c) = RecvClosed ->
  faults (sock c) = repeat false k ++ true :: fs ->
  sock_closed (sock c) = false ->
  (k < len (output c))%nat ->
  forall sched,
    writeLoop (WCaseCloser :: sched) c
    = Some (WExit (wgDone
        (with_sock
           (mkSocket (wire (sock c)
                      ++ map (SetPayloadSize (MaxPayloadSize c))
                             (firstn k (queue (output c))))
                     fs false)
           (with_output (mkChan (cap (output c)) (skipn (S k) (queue (output c)))
                                (closed (output c)))
                        c)))).
Proof.
  intros Hlatch Hf Hsock Hlen sched. cbn [writeLoop]. rewrite Hlatch.
  unfold len in *.
  now rewrite (flushLoop_failed_write k _ (queue (output c)) c fs) by (auto; lia).
Qed.

Lemma flushLoop_stops_at_failure_witness :
  let c0 := acquireConn (mkSocket [] [false; true] false) in
  let f1 := SetPayload [1] (SetText AcquireFrame) in
  let f2 := SetPayload [2] (SetText AcquireFrame) in
  let f3 := SetPayload [3] (SetText AcquireFrame) in
  let c := with_closer (mkChan 1 [] true) true
             (with_output (mkChan 128 [f1; f2; f3] false) c0) in
  exists c', writeLoop [WCaseCloser] c = Some (WExit c') /\
             map Payload (wire (sock c')) = [[1]] /\
             queue (output c') = [f3].
Proof.
  intros c0 f1 f2 f3 c.
  assert (Hlen : (1 < len (output c))%nat) by (cbn; lia).
  pose proof (flushLoop_stops_at_failure 1 c [] eq_refl eq_refl eq_refl Hlen []) as H.
  eexists. split; [exact H|]. split; reflexivity.
Defined.

(** ** The reader *)

Lemma readLoop_iter_frame (c : Conn) (fr : Frame) :
  has_room (input c) ->
  readLoop_iter (decodes fr) c
  = Ret (negb (IsClose fr),
         with_input (enq (input c) (SetPayloadSize (MaxPayloadSize c) fr)) c).
Proof.
  intros Hroom. unfold readLoop_iter, decodes. cbn [fst snd fr_max SetPayloadSize].
  rewrite (send_has_room _ _ Hroom). reflexivity.
Qed.

(** The reader hands over the decoded frames in the order read, each
    under the connection's payload limit, as long as the inbound queue has
    room, and the first close frame is the last frame it reads: whatever
    the socket holds behind it is never decoded. *)
Theorem readLoop_stops_at_close (pre : list Frame) :
  forall (c : Conn) (cl : Frame) (later : list (Frame -> Frame * goerror)),
    Forall (fun fr => IsClose fr = false) pre ->
    IsClose cl = true ->
    closed (input c) = false ->
    (length (queue (input c)) + length pre < cap (input c))%nat ->
    readLoop (map decodes pre ++ decodes cl :: later) c
    = RExit (wgDone
        (with_input
           (mkChan (cap (input c))
                   (queue (input c)
                    ++ map (SetPayloadSize (MaxPayloadSize c)) (pre ++ [cl]))
                   false)
           c)).
Proof.
  induction pre as [|fr pre IH]; intros c cl later Hall Hcl Hopen Hlen;
    cbn [map app readLoop].
  - rewrite readLoop_iter_frame by (split; [exact Hopen | cbn in Hlen; lia]).
    rewrite Hcl. cbn [negb]. unfold enq. now rewrite Hopen.
  - inversion Hall as [|? ? Hfr Hrest]; subst.
    rewrite readLoop_iter_frame by (split; [exact Hopen | cbn in Hlen; lia]).
    rewrite Hfr. cbn [negb].
    rewrite IH; try assumption; try reflexivity.
    + cbn [input with_input enq cap queue MaxPayloadSize].
      now rewrite <- app_assoc.
    + cbn [input with_input enq cap queue]. rewrite length_app.
      cbn [length] in *. lia.
Qed.

Lemma readLoop_stops_at_close_witness :
  let c := acquireConn (mkSocket [] [] false) in
  let f1 := SetPayload [1] (SetText AcquireFrame) in
  let cl := SetFin (SetClose AcquireFrame) in
  let f2 := SetPayload [2] (SetText AcquireFrame) in
  exists c', readLoop [decodes f1; decodes cl; decodes f2] c = RExit c' /\
             map Code (queue (input c')) = [CodeText; CodeClose].
Proof.
  intros c f1 cl f2.
  assert (Hlen : (length (queue (input c)) + length [f1] < cap (input c))%nat)
    by (cbn; lia).
  assert (Hall : Forall (fun fr => IsClose fr = false) [f1]) by (repeat constructor).
  pose proof (readLoop_stops_at_close [f1] c cl [decodes f2]
                Hall eq_refl eq_refl Hlen) as H.
  eexists. split; [exact H | reflexivity].
Defined.

(** A decode error ends the reader: the frames read before it are in the
    inbound queue, the error reaches the mailbox wrapped as a close-error
    (or is dropped when the mailbox is full), and nothing more is read. *)
Theorem readLoop_stops_at_error (pre : list Frame) :
  forall (c : Conn) (e : error) (later : list (Frame -> Frame * goerror)),
    Forall (fun fr => IsClose fr = false) pre ->
    closed (input c) = false ->
    closed (errch c) = false ->
    (length (queue (input c)) + length pre <= cap (input c))%nat ->
    readLoop (map decodes pre ++ decodeFails e :: later) c
    = RExit (wgDone
        (with_errch
           (if (length (queue (errch c)) <? cap (errch c))%nat
            then enq (errch c) (Some (closeError (Some e)))
            else errch c)
           (with_input
              (mkChan (cap (input c))
                      (queue (input c)
                       ++ map (SetPayloadSize (MaxPayloadSize c)) pre)
                      false)
              c))).
Proof.
  induction pre as [|fr pre IH]; intros c e later Hall Hopen Herr Hlen;
    cbn [map app readLoop].
  - unfold readLoop_iter, decodeFails, try_send. cbn [fst snd]. rewrite Herr.
    assert (Hc : with_input (mkChan (cap (input c)) (queue (input c) ++ []) false) c = c).
    { rewrite app_nil_r.
      destruct c as [sk [icap iq icl] o cl once ec b n rt wt mx g cx].
      cbn in *. now subst. }
    rewrite Hc. destruct (_ <? _)%nat; reflexivity.
  - inversion Hall as [|? ? Hfr Hrest]; subst.
    rewrite readLoop_iter_frame by (split; [exact Hopen | cbn in Hlen; lia]).
    rewrite Hfr. cbn [negb].
    rewrite IH; try assumption; try reflexivity.
    + cbn [input with_input with_errch errch enq cap queue closed MaxPayloadSize].
      now rewrite <- app_assoc.
    + cbn [input with_input enq cap queue]. rewrite length_app.
      cbn [length] in *. lia.
Qed.

Lemma readLoop_stops_at_error_witness :
  let c := acquireConn (mkSocket [] [] false) in
  let f1 := SetPayload [1] (SetText AcquireFrame) in
  exists c',
    readLoop [decodes f1; decodeFails (otherError "EOF"); decodes f1] c
    = RExit c' /\
    map Payload (queue (input c')) = [[1]] /\
    queue (errch c') = [Some (closeError (Some (otherError "EOF")))].
Proof.
  intros c f1.
  assert (Hlen : (length (queue (input c)) + length [f1] <= cap (input c))%nat)
    by (cbn; lia).
  assert (Hall : Forall (fun fr => IsClose fr = false) [f1]) by (repeat constructor).
  pose proof (readLoop_stops_at_error [f1] c (otherError "EOF") [decodes f1]
                Hall eq_refl eq_refl Hlen) as H.
  eexists. split; [exact H|]. split; reflexivity.
Defined.

(** ** Control frames and reassembly *)

Lemma handleControl_buffered (StatusNone : Z) (s : Server) (c c' : Conn)
      (fr : Frame) (evs : list Event) :
  handleControl StatusNone s c fr = Ret (c', evs) ->
  buffered c' = buffered c /\ sock c' = sock c /\ filter isOnMessage evs = [].
Proof.
  unfold handleControl, handlePing, handlePong, handleClose, WriteFrame, closeOnceDo.
  intros H.
  repeat match type of H with
         | context [if ?b then _ else _] => destruct b; simpl in H
         | context [send ?ch ?x] => destruct (send ch x); simpl in H
         | context [close ?ch] => destruct (close ch); simpl in H
         end;
    try discriminate; injection H as <- <-; repeat split.
Qed.

Lemma handleFrameData_reads_buffer (s : Server) (c d : Conn) (fr : Frame) :
  buffered c = buffered d ->
  snd (handleFrameData s c fr) = snd (handleFrameData s d fr) /\
  buffered (fst (handleFrameData s c fr)) = buffered (fst (handleFrameData s d fr)) /\
  filter isOnMessage (snd (handleFrameData s c fr)) = snd (handleFrameData s c fr).
Proof.
  intros Hb. unfold handleFrameData. rewrite <- Hb.
  destruct (buffered c) as [bf|] eqn:Hc; destruct (IsFin fr); cbn [fst snd];
    destruct (negb _ && msgHandler s); cbn; repeat split; congruence.
Qed.

(** Control frames never disturb reassembly: the messages delivered for a
    sequence of frames, and the reassembly buffer left behind, are those
    obtained from its data frames alone, wherever pings, pongs and close
    frames were interleaved. *)
Theorem control_frames_transparent (StatusNone : Z) (s : Server) (frs : list Frame)
        (c c' : Conn) (evs : list Event) :
  handleFrames StatusNone s c frs = Ret (c', evs) ->
  exists d',
    handleFrames StatusNone s c (filter (fun fr => negb (IsControl fr)) frs)
    = Ret (d', filter isOnMessage evs) /\
    buffered d' = buffered c'.
Proof.
  assert (Hgen : forall frs c d c' evs,
             buffered c = buffered d ->
             handleFrames StatusNone s c frs = Ret (c', evs) ->
             exists d',
               handleFrames StatusNone s d (filter (fun fr => negb (IsControl fr)) frs)
               = Ret (d', filter isOnMessage evs) /\
               buffered d' = buffered c').
  { clear. induction frs as [|fr frs IH]; intros c d c' evs Hb; cbn [handleFrames filter].
    - intros [= <- <-]. exists d. split; [reflexivity | now symmetry].
    - destruct (handleFrame StatusNone s c fr) as [[c1 e1]| |] eqn:E1;
        cbn [bind fst snd]; try discriminate.
      destruct (handleFrames StatusNone s c1 frs) as [[c2 e2]| |] eqn:E2;
        cbn [bind fst snd]; try discriminate.
      intros [= <- <-]. rewrite filter_app.
      destruct (IsControl fr) eqn:Hctl; cbn [negb].
      + unfold handleFrame in E1.
        replace (IsControl (if IsMasked fr then Unmask fr else fr)) with (IsControl fr) in E1
          by (destruct (IsMasked fr); reflexivity).
        rewrite Hctl in E1.
        destruct (handleControl_buffered _ _ _ _ _ _ E1) as (Hb1 & _ & Hnone).
        rewrite Hnone. cbn [app].
        apply (IH c1 d c2 e2); [congruence | exact E2].
      + rewrite (handleFrame_data StatusNone s c fr Hctl) in E1.
        cbn [handleFrames].
        rewrite (handleFrame_data StatusNone s d fr Hctl).
        injection E1 as E1.
        set (fr' := if IsMasked fr then Unmask fr else fr) in *.
        destruct (handleFrameData_reads_buffer s c d fr' Hb) as (Hev & Hbuf & Hmsg).
        rewrite E1 in Hev, Hbuf, Hmsg. cbn [fst snd] in Hev, Hbuf, Hmsg.
        cbn [bind fst snd].
        destruct (handleFrameData s d fr') as [d1 e1'] eqn:Ed.
        cbn [fst snd] in *. subst e1'.
        destruct (IH c1 d1 c2 e2 Hbuf E2) as (d' & Hrun & Hbd).
        exists d'. rewrite Hrun. cbn [bind fst snd]. rewrite Hmsg. auto. }
  intros H. exact (Hgen frs c c c' evs eq_refl H).
Qed.

Lemma control_frames_transparent_witness :
  let s := mkServer [] EmptyString 0 true false true true true true true in
  let c := acquireConn (mkSocket [] [] false) in
  let f0 := mkFrame false 0 CodeText false [0; 0; 0; 0] [72; 105] 0 in
  let ping := mkFrame true 0 CodePing false [0; 0; 0; 0] [7] 0 in
  let f1 := mkFrame true 0 CodeContinuation false [0; 0; 0; 0] [33] 0 in
  exists d',
    handleFrames 1000 s c [f0; f1] = Ret (d', [OnMessage false [72; 105; 33]]).
Proof.
  intros s c f0 ping f1.
  destruct (control_frames_transparent 1000 s [f0; ping; f1] c
              (with_output (enq (output c) (SetFin (SetPayload [7] (SetCode CodePong AcquireFrame)))) c)
              [OnPing [7]; OnMessage false [72; 105; 33]] eq_refl)
    as (d' & H & _).
  exists d'. exact H.
Defined.

(** Complete messages sent one frame each reach the message callback in
    arrival order, each with its own payload and with the binary flag set
    exactly for the binary frames. *)
Theorem unfragmented_messages_in_order (StatusNone : Z) (s : Server) (frs : list Frame) :
  forall c : Conn,
    msgHandler s = true ->
    buffered c = None ->
    Forall (fun fr => IsControl fr = false /\ IsFin fr = true
                      /\ clearPayload fr <> []) frs ->
    handleFrames StatusNone s c frs
    = Ret (c, map (fun fr => OnMessage (Code fr =? CodeBinary) (clearPayload fr)) frs).
Proof.
  induction frs as [|fr frs IH]; intros c Hmsg Hbuf Hall; cbn [handleFrames map].
  - reflexivity.
  - inversion Hall as [|? ? (Hctl & Hfin & Hdata) Hrest]; subst.
    rewrite (handleFrame_data_effect StatusNone s c fr Hctl).
    rewrite Hbuf, Hfin, Hmsg.
    destruct (clearPayload fr) as [|x p] eqn:Hp; [congruence|].
    cbn [length Nat.eqb negb andb bind fst snd].
    rewrite (with_buffered_eq c None Hbuf).
    rewrite (IH c Hmsg Hbuf Hrest). reflexivity.
Qed.

Lemma unfragmented_messages_in_order_witness :
  let s := mkServer [] EmptyString 0 true false true true true true true in
  let c := acquireConn (mkSocket [] [] false) in
  let t := mkFrame true 0 CodeText false [0; 0; 0; 0] [72; 105] 0 in
  let b := mkFrame true 0 CodeBinary true [1; 1; 1; 1] [1; 2] 0 in
  handleFrames 1000 s c [t; b]
  = Ret (c, [OnMessage false [72; 105]; OnMessage true [0; 3]]).
Proof.
  intros s c t b.
  apply (unfragmented_messages_in_order 1000 s [t; b] c eq_refl eq_refl).
  repeat constructor; discriminate.
Defined.

(** ** What the supervisor leaves alone *)

Lemma callFrHandler_sock (StatusNone : Z) (s : Server) (c c' : Conn)
      (fr : Frame) (evs : list Event) :
  callFrHandler StatusNone s c fr = Ret (c', evs) -> sock c' = sock c.
Proof.
  unfold callFrHandler, handleFrame. destruct (frHandler s).
  - intros [= <- <-]. reflexivity.
  - destruct (IsControl _).
    + intros H. now destruct (handleControl_buffered _ _ _ _ _ _ H) as (_ & Hs & _).
    + unfold handleFrameData.
      destruct (buffered c); destruct (IsFin _); cbn [fst snd];
        destruct (negb _ && msgHandler s); intros [= <- <-]; reflexivity.
Qed.

Lemma serveSelect_sock (StatusNone : Z) (s : Server) (c c' : Conn)
      (k : SelectCase) (ctl : LoopCtl) (evs : list Event) :
  serveSelect StatusNone s c k = Some (Ret (ctl, c', evs)) -> sock c' = sock c.
Proof.
  unfold serveSelect. destruct k.
  - destruct (recv (input c)) as [fr ch| |]; try discriminate.
    destruct (callFrHandler StatusNone s (with_input ch c) fr) as [[c1 e1]| |] eqn:E;
      cbn [bind fst snd]; try discriminate.
    intros [= <- <- <-]. exact (callFrHandler_sock _ _ _ _ _ _ E).
  - destruct (recv (errch c)) as [err ch| |]; try discriminate.
    + destruct err as [[st rs|e|m]|]; intros [= <- <- <-]; reflexivity.
    + intros [= <- <- <-]. reflexivity.
  - destruct (recv (closer c)) as [u ch| |]; try discriminate;
      intros [= <- <- <-]; reflexivity.
Qed.

Lemma serveLoop_sock (StatusNone : Z) (s : Server) (sched : list SelectCase) :
  forall (c c' : Conn) (cause : goerror) (evs : list Event),
    serveLoop StatusNone s sched c = Some (Ret (cause, c', evs)) ->
    sock c' = sock c.
Proof.
  induction sched as [|k sched IH]; intros c c' cause evs; cbn [serveLoop].
  - discriminate.
  - destruct (serveSelect StatusNone s c k) as [[[[ctl c1] e1]| |]|] eqn:E;
      try discriminate.
    pose proof (serveSelect_sock _ _ _ _ _ _ _ E) as H1.
    destruct ctl as [|cause1].
    + destruct (serveLoop StatusNone s sched c1) as [[[[cause2 c2] e2]| |]|] eqn:E2;
        try discriminate.
      intros [= <- <- <-]. rewrite (IH _ _ _ _ E2). exact H1.
    + intros [= <- <- <-]. exact H1.
Qed.

(** The supervisor never writes to the socket: whatever frames it handles
    and whichever handlers run, every completed run of [serveConn] leaves
    the wire as it found it (replies only go through the outbound queue)
    and ends with the socket closed. *)
Theorem serveConn_single_writer (StatusNone : Z) (s : Server)
        (sched : list SelectCase) (c c' : Conn) (evs : list Event) :
  serveConn StatusNone s sched c = Some (Ret (c', evs)) ->
  wire (sock c') = wire (sock c) /\ sock_closed (sock c') = true.
Proof.
  unfold serveConn.
  destruct (serveLoop StatusNone s sched c) as [[[[cause c1] e1]| |]|] eqn:E;
    try discriminate.
  intros [= <- <-]. cbn. rewrite (serveLoop_sock _ _ _ _ _ _ _ E). auto.
Qed.

Lemma serveConn_single_writer_witness :
  let s := mkServer [] EmptyString 0 true false true true true true true in
  let c0 := acquireConn (mkSocket [] [] false) in
  let ping := mkFrame true 0 CodePing false [0; 0; 0; 0] [7] 0 in
  let c := with_errch (mkChan 2 [None] false) (with_input (mkChan 128 [ping] false) c0) in
  exists c', serveConn 1000 s [CaseInput; CaseErrch] c
             = Some (Ret (c', [OnPing [7]; OnClose None])) /\
             wire (sock c') = [] /\ sock_closed (sock c') = true.
Proof.
  intros s c0 ping c. eexists. split; [reflexivity|].
  exact (serveConn_single_writer 1000 s [CaseInput; CaseErrch] c _ _ eq_refl).
Defined.

(** ** Channel safety *)

Lemma returns_ok_bind {A B : Type} (P : A -> Prop) (Q : B -> Prop)
      (m : result A) (k : A -> result B) :
  returns_ok P m -> (forall a, P a -> returns_ok Q (k a)) -> returns_ok Q (bind m k).
Proof. destruct m; cbn; auto. Qed.

Lemma send_ok {A : Type} (ch : chan A) (x : A) :
  closed ch = false -> within_cap ch ->
  returns_ok (fun ch' => closed ch' = false /\ within_cap ch'
                         /\ cap ch' = cap ch) (send ch x).
Proof.
  intros Hopen Hcap. unfold send. rewrite Hopen.
  destruct (_ <? _)%nat eqn:E; cbn; [|exact I].
  apply Nat.ltb_lt in E. unfold within_cap. cbn. rewrite length_app. cbn.
  repeat split; [assumption | lia].
Qed.


Lemma WriteFrame_ok (c : Conn) (fr : Frame) :
  conn_ok c -> returns_ok conn_ok (WriteFrame c fr).
Proof.
  intros (Hi & (Ho1 & Ho2) & He & Hl). unfold WriteFrame.
  apply (returns_ok_bind _ _ _ _ (send_ok _ fr Ho1 Ho2)).
  intros ch (H1 & H2 & _). cbn. unfold conn_ok. cbn. auto.
Qed.

Lemma closeOnceDo_ok (c : Conn) :
  conn_ok c -> returns_ok (fun r => conn_ok (fst r)) (closeOnceDo c).
Proof.
  intros (Hi & Ho & He & Hq & Hl). unfold closeOnceDo.
  destruct (closeOnce c) eqn:Honce; cbn.
  - unfold conn_ok. auto.
  - unfold close. destruct (closed (closer c)) eqn:Hc.
    + specialize (Hl eq_refl). discriminate.
    + cbn. unfold conn_ok. cbn. auto.
Qed.




Lemma acquireConn_ok (nc : Socket) : conn_ok (acquireConn nc).
Proof. unfold conn_ok, within_cap. cbn. repeat split; try lia; try discriminate. Qed.


(** Local close is safe at any moment: on such a connection any number of
    [CloseDetail] calls, also after the peer's close has been handled,
    never panics and keeps the connection in that state. *)
Theorem CloseDetail_channel_safe (calls : list (Z * bytes)) :
  forall c : Conn,
    conn_ok c ->
    returns_ok (fun r => conn_ok (fst r)) (CloseDetail_seq c calls).
Proof.
  induction calls as [|[status reason] calls IH]; intros c Hok; cbn [CloseDetail_seq].
  - exact Hok.
  - assert (H1 : returns_ok (fun r => conn_ok (fst r)) (CloseDetail c status reason)).
    { unfold CloseDetail. destruct (negb (isClosed c)); [|exact Hok].
      apply (returns_ok_bind _ _ _ _ (WriteFrame_ok c _ Hok)).
      intros c1 Hok1. exact (closeOnceDo_ok c1 Hok1). }
    apply (returns_ok_bind _ _ _ _ H1). intros r1 Hr1.
    apply (returns_ok_bind _ _ _ _ (IH (fst r1) Hr1)). intros r2 Hr2. exact Hr2.
Qed.

Lemma CloseDetail_channel_safe_witness :
  let c := acquireConn (mkSocket [] [] false) in
  returns_ok (fun r => conn_ok (fst r)) (CloseDetail_seq c [(1000, []); (1001, [98])]).
Proof.
  intros c. exact (CloseDetail_channel_safe [(1000, []); (1001, [98])] c (acquireConn_ok _)).
Defined.

(** ** The raw frame handler *)

(** A registered raw frame handler takes over completely: every frame of
    the inbound queue, control frames included, goes to it unchanged and
    in order, and the library itself answers nothing: no pong, no close
    reply, no reassembly, and the latch stays as it was. *)
Theorem raw_handler_takes_over (StatusNone : Z) (s : Server) (q : list Frame) :
  forall (c : Conn) (rest : list Frame) (sched : list SelectCase),
    frHandler s = true ->
    queue (input c) = q ++ rest ->
    serveLoop StatusNone s (repeat CaseInput (length q) ++ sched) c
    = match serveLoop StatusNone s sched
              (with_input (mkChan (cap (input c)) rest (closed (input c))) c) with
      | Some (Ret (cause, c', evs)) => Some (Ret (cause, c', map OnFrame q ++ evs))
      | other => other
      end.
Proof.
  induction q as [|fr q IH]; intros c rest sched Hraw Hq.
  - cbn [length repeat app map].
    assert (Hc : with_input (mkChan (cap (input c)) rest (closed (input c))) c = c).
    { destruct c as [sk [icap iq icl] o cl once e b n rt wt mx g cx].
      cbn in *. now subst. }
    rewrite Hc.
    destruct (serveLoop StatusNone s sched c) as [[[[cause c'] evs]| |]|]; reflexivity.
  - cbn [length repeat app serveLoop]. unfold serveSelect at 1, recv.
    rewrite Hq. cbn [app]. unfold callFrHandler. rewrite Hraw. cbn [bind fst snd].
    rewrite (IH _ rest sched Hraw) by reflexivity.
    cbn [input with_input cap closed map].
    destruct (serveLoop StatusNone s sched _) as [[[[cause c'] evs]| |]|]; reflexivity.
Qed.

Lemma raw_handler_takes_over_witness :
  let s := mkServer [] EmptyString 0 true true true true true true true in
  let c0 := acquireConn (mkSocket [] [] false) in
  let ping := mkFrame true 0 CodePing false [0; 0; 0; 0] [7] 0 in
  let cl := mkFrame true 0 CodeClose false [0; 0; 0; 0] [3; 233] 0 in
  let c := with_errch (mkChan 2 [None] false)
             (with_input (mkChan 128 [ping; cl] false) c0) in
  exists c',
    serveLoop 1000 s [CaseInput; CaseInput; CaseErrch] c
    = Some (Ret (None, c', [OnFrame ping; OnFrame cl])) /\
    queue (output c') = [] /\ isClosed c' = false.
Proof.
  intros s c0 ping cl c.
  pose proof (raw_handler_takes_over 1000 s [ping; cl] c [] [CaseErrch] eq_refl eq_refl) as H.
  eexists. split; [exact H|]. split; reflexivity.
Defined.

(** ** Close frames end to end *)

(** [CloseDetail(status, reason)] enqueues a final close frame that reads
    back as that status and that reason; the default handler of an endpoint
    that receives this frame posts the error (status, reason) to its
    mailbox and answers with a close frame of the same status. *)
Theorem CloseDetail_round_trip (StatusNone : Z) (c : Conn) (status : Z) (reason : bytes) :
  0 <= status < 65536 ->
  isClosed c = false ->
  closeOnce c = false ->
  has_room (output c) ->
  exists (c1 : Conn) (fr : Frame),
    CloseDetail c status reason = Ret (c1, [CloserClosed]) /\
    queue (output c1) = queue (output c) ++ [fr] /\
    IsClose fr = true /\ IsFin fr = true /\
    Status StatusNone fr = status /\ Payload fr = reason /\
    forall (s : Server) (d : Conn),
      status <> StatusNone ->
      has_room (errch d) -> has_room (output d) ->
      closeOnce d = false -> closed (closer d) = false ->
      exists d',
        handleFrame StatusNone s d fr = Ret (d', [CloserClosed]) /\
        queue (errch d') = queue (errch d) ++ [Some (Error status reason)] /\
        map (Status StatusNone) (queue (output d'))
        = map (Status StatusNone) (queue (output d)) ++ [status].
Proof.
  intros Hrange Hlatch Honce Hroom.
  set (fr := Write reason (SetFin (SetStatus status (SetClose AcquireFrame)))).
  assert (Hst : Status StatusNone fr = status).
  { pose proof (Status_SetStatus StatusNone status (SetClose AcquireFrame) Hrange) as H.
    unfold Status in *. cbn in *. exact H. }
  eexists _, fr. split; [exact (CloseDetail_open c status reason Hlatch Honce Hroom)|].
  split; [reflexivity|]. split; [reflexivity|]. split; [reflexivity|].
  split; [exact Hst|]. split; [reflexivity|].
  intros s d Hne He Ho Hdonce Hdopen.
  pose proof (handleFrame_close StatusNone s d fr eq_refl He Ho Hdonce Hdopen) as H.
  cbv zeta in H. change (if IsMasked fr then Unmask fr else fr) with fr in H.
  rewrite Hst in H. apply Z.eqb_neq in Hne. rewrite Hne in H. cbn [negb] in H.
  eexists. split; [exact H|]. split; [reflexivity|].
  cbn [afterPeerClose output with_closer with_output with_errch enq queue].
  rewrite map_app. cbn [map]. f_equal. f_equal.
  exact (Status_SetStatus StatusNone status (SetClose AcquireFrame) Hrange).
Qed.

Lemma CloseDetail_round_trip_witness :
  let c := acquireConn (mkSocket [] [] false) in
  exists c1 fr,
    CloseDetail c 1001 [66; 121; 101] = Ret (c1, [CloserClosed]) /\
    queue (output c1) = [fr] /\ Status 1000 fr = 1001 /\ Payload fr = [66; 121; 101].
Proof.
  intros c.
  assert (Hrange : 0 <= 1001 < 65536) by lia.
  assert (Hroom : has_room (output c)) by (split; [reflexivity | cbn; lia]).
  destruct (CloseDetail_round_trip 1000 c 1001 [66; 121; 101] Hrange eq_refl eq_refl Hroom)
    as (c1 & fr & Hrun & Hq & _ & _ & Hst & Hp & _).
  exists c1, fr. auto.
Defined.

(** ** Application writes *)



(** ** Connection identifiers and the life of a connection *)

Lemma hijackAll_ids (ncs : list Socket) :
  forall s : Server,
    0 <= nextID s ->
    nextID s + Z.of_nat (length ncs) < 2 ^ 64 ->
    map id (hijackAll s ncs)
    = map (fun k => nextID s + 1 + Z.of_nat k) (seq 0 (length ncs)).
Proof.
  induction ncs as [|nc ncs IH]; intros s Hpos Hmax; cbn [hijackAll length seq map].
  - reflexivity.
  - unfold hijackOpen.
    assert (Hadd : AddUint64 (nextID s) 1 = nextID s + 1).
    { unfold AddUint64. apply Z.mod_small. cbn [length] in Hmax. lia. }
    cbn [map id with_id_ctx]. rewrite Hadd. f_equal; [cbn; lia|].
    rewrite IH; cbn [nextID with_nextID]; cbn [length] in Hmax; try lia.
    rewrite <- seq_shift, map_map. apply map_ext. intros k. lia.
Qed.

(** Connection identifiers are handed out in sequence, starting one above
    the server's counter, so the connections of one server carry pairwise
    different identifiers as long as the 64-bit counter does not wrap. *)
Theorem connection_ids_unique (s : Server) (ncs : list Socket) :
  0 <= nextID s ->
  nextID s + Z.of_nat (length ncs) < 2 ^ 64 ->
  map id (hijackAll s ncs)
  = map (fun k => nextID s + 1 + Z.of_nat k) (seq 0 (length ncs)) /\
  NoDup (map id (hijackAll s ncs)).
Proof.
  intros Hpos Hmax. pose proof (hijackAll_ids ncs s Hpos Hmax) as H.
  split; [exact H|]. rewrite H.
  apply Finite.Injective_map_NoDup; [|apply seq_NoDup].
  intros a b Hab. lia.
Qed.

Lemma connection_ids_unique_witness :
  let s := mkServer [] EmptyString 0 false false false false false false false in
  let nc := mkSocket [] [] false in
  map id (hijackAll s [nc; nc; nc]) = [1; 2; 3].
Proof.
  intros s nc.
  assert (Hpos : 0 <= nextID s) by (cbn; lia).
  assert (Hmax : nextID s + Z.of_nat (length [nc; nc; nc]) < 2 ^ 64) by (cbn; lia).
  exact (proj1 (connection_ids_unique s [nc; nc; nc] Hpos Hmax)).
Defined.

Lemma handleControl_loop_events (StatusNone : Z) (s : Server) (c c' : Conn)
      (fr : Frame) (evs : list Event) :
  handleControl StatusNone s c fr = Ret (c', evs) ->
  forallb isLoopEvent evs = true.
Proof.
  unfold handleControl, handlePing, handlePong, handleClose, WriteFrame, closeOnceDo.
  intros H.
  repeat match type of H with
         | context [if ?b then _ else _] => destruct b; simpl in H
         | context [send ?ch ?x] => destruct (send ch x); simpl in H
         | context [close ?ch] => destruct (close ch); simpl in H
         end;
    try discriminate; injection H as <- <-; reflexivity.
Qed.

Lemma serveSelect_loop_events (StatusNone : Z) (s : Server) (c c' : Conn)
      (k : SelectCase) (ctl : LoopCtl) (evs : list Event) :
  serveSelect StatusNone s c k = Some (Ret (ctl, c', evs)) ->
  forallb isLoopEvent evs = true.
Proof.
  unfold serveSelect. destruct k.
  - destruct (recv (input c)) as [fr ch| |]; try discriminate.
    destruct (callFrHandler StatusNone s (with_input ch c) fr) as [[c1 e1]| |] eqn:E;
      cbn [bind fst snd]; try discriminate.
    intros [= <- <- <-]. revert E. unfold callFrHandler, handleFrame.
    destruct (frHandler s); [intros [= <- <-]; reflexivity|].
    destruct (IsControl _); [apply handleControl_loop_events|].
    unfold handleFrameData. destruct (negb _ && msgHandler s); intros [= <- <-]; reflexivity.
  - destruct (recv (errch c)) as [err ch| |]; try discriminate.
    + destruct err as [[st rs|e|m]|]; intros [= <- <- <-]; try reflexivity.
      destruct (errHandler s); reflexivity.
    + intros [= <- <- <-]. reflexivity.
  - destruct (recv (closer c)) as [u ch| |]; try discriminate;
      intros [= <- <- <-]; reflexivity.
Qed.

Lemma serveLoop_loop_events (StatusNone : Z) (s : Server) (sched : list SelectCase) :
  forall (c c' : Conn) (cause : goerror) (evs : list Event),
    serveLoop StatusNone s sched c = Some (Ret (cause, c', evs)) ->
    forallb isLoopEvent evs = true.
Proof.
  induction sched as [|k sched IH]; intros c c' cause evs; cbn [serveLoop].
  - discriminate.
  - destruct (serveSelect StatusNone s c k) as [[[[ctl c1] e1]| |]|] eqn:E;
      try discriminate.
    pose proof (serveSelect_loop_events _ _ _ _ _ _ _ E) as H1.
    destruct ctl as [|cause1].
    + destruct (serveLoop StatusNone s sched c1) as [[[[cause2 c2] e2]| |]|] eqn:E2;
        try discriminate.
      intros [= <- <- <-]. rewrite forallb_app, H1. exact (IH _ _ _ _ E2).
    + intros [= <- <- <-]. exact H1.
Qed.

(** The callbacks of one connection are bracketed: the open callback comes
    first, the close callback last, each exactly once, and every message,
    ping, pong, error and raw-frame callback falls in between. *)
Theorem hijack_callback_order (StatusNone : Z) (s s' : Server) (nc : Socket)
        (nctx : list (string * string))
        (reads : list (Frame -> Frame * goerror)) (sched : list SelectCase)
        (c' : Conn) (evs : list Event) :
  openHandler s = true ->
  closeHandler s = true ->
  hijack StatusNone s nc nctx reads sched = (s', Some (Ret (c', evs))) ->
  exists (mid : list Event) (cause : goerror),
    evs = OnOpen :: mid ++ [OnClose cause] /\
    forallb isLoopEvent mid = true.
Proof.
  intros Hopen Hclose. unfold hijack, hijackOpen, serveConn. rewrite Hopen, Hclose.
  destruct (readLoop reads _) as [conn'|conn'|conn'|]; try discriminate;
    (destruct (serveLoop StatusNone s sched conn') as [[[[cause c1] e1]| |]|] eqn:E;
     try discriminate;
     intros [= _ _ <-]; exists e1, cause; split; [reflexivity|];
     exact (serveLoop_loop_events _ _ _ _ _ _ _ E)).
Qed.

Lemma hijack_callback_order_witness :
  let s := mkServer [] EmptyString 0 true false true true true true true in
  let nc := mkSocket [] [] false in
  let ping := mkFrame true 0 CodePing false [0; 0; 0; 0] [7] 0 in
  let cl := mkFrame true 0 CodeClose false [0; 0; 0; 0] [3; 233; 98; 121; 101] 0 in
  (exists s' c',
      hijack 1000 s nc [] [decodes ping; decodes cl] [CaseInput; CaseInput; CaseErrch]
      = (s', Some (Ret (c', [OnOpen; OnPing [7]; CloserClosed;
                             OnClose (Some (Error 1001 [98; 121; 101]))])))) /\
  (exists mid cause,
      [OnOpen; OnPing [7]; CloserClosed; OnClose (Some (Error 1001 [98; 121; 101]))]
      = OnOpen :: mid ++ [OnClose cause] /\
      forallb isLoopEvent mid = true).
Proof.
  intros s nc ping cl. split.
  - eexists _, _. vm_compute. reflexivity.
  - eapply (hijack_callback_order 1000 s _ nc []
              [decodes ping; decodes cl] [CaseInput; CaseInput; CaseErrch]);
      [reflexivity | reflexivity | vm_compute; reflexivity].
Defined.

(** ** Protocol selection, continued *)

Lemma scanProtos_Some (protos accepted : list string) (a : string) :
  scanProtos protos accepted = Some a -> In a protos /\ In a accepted.
Proof.
  induction protos as [|p rest IH]; cbn [scanProtos]; [discriminate|].
  destruct (firstAccepted p accepted) as [x|] eqn:E.
  - intros [= ->]. destruct (firstAccepted_Some _ _ _ E) as [-> Hin].
    split; [left; reflexivity | exact Hin].
  - intros H. destruct (IH H). split; [right|]; assumption.
Qed.

Lemma scanProtos_None (protos accepted : list string) :
  scanProtos protos accepted = None ->
  forall p, In p protos -> ~ In p accepted.
Proof.
  induction protos as [|q rest IH]; cbn [scanProtos]; [intros _ p []|].
  destruct (firstAccepted q accepted) as [x|] eqn:E; [discriminate|].
  intros H p [<-|Hin].
  - now apply firstAccepted_None.
  - exact (IH H p Hin).
Qed.

(** The protocol put in the response is always one the client offered: a
    server protocol that the client did not name is never selected.  It is
    one the server supports as well, unless the server supports none of the
    offers. *)
Theorem selectProtocol_is_an_offer (protos accepted : list string) :
  protos <> [] ->
  In (selectProtocol protos accepted) protos /\
  (In (selectProtocol protos accepted) accepted \/
   forall p, In p protos -> ~ In p accepted).
Proof.
  intros Hne. unfold selectProtocol.
  destruct protos as [|first rest]; [congruence|].
  destruct (scanProtos (first :: rest) accepted) as [a|] eqn:E.
  - destruct (scanProtos_Some _ _ _ E). auto.
  - split; [left; reflexivity|]. right. exact (scanProtos_None _ _ E).
Qed.

Lemma selectProtocol_is_an_offer_witness :
  In (selectProtocol ["mqtt"; "chat"]%string ["soap"; "chat"]%string)
     ["mqtt"; "chat"]%string.
Proof.
  assert (Hne : ["mqtt"; "chat"]%string <> []) by discriminate.
  exact (proj1 (selectProtocol_is_an_offer
                  ["mqtt"; "chat"]%string ["soap"; "chat"]%string Hne)).
Defined.

(** ** Pings and closes across the two directions *)

(** A ping sent with [Ping] comes back: the frame it enqueues is a final
    ping frame with the given payload, and the default handler of the
    endpoint that receives it enqueues a pong with that same payload. *)
Theorem Ping_round_trip (StatusNone : Z) (s : Server) (c d : Conn) (data : bytes) :
  has_room (output c) ->
  has_room (output d) ->
  exists (c1 d1 : Conn) (fr pong : Frame),
    Ping c data = Ret c1 /\
    queue (output c1) = queue (output c) ++ [fr] /\
    IsPing fr = true /\ IsFin fr = true /\
    handleFrame StatusNone s d fr
    = Ret (d1, if pingHandler s then [OnPing data] else []) /\
    queue (output d1) = queue (output d) ++ [pong] /\
    IsPong pong = true /\ IsFin pong = true /\ Payload pong = data.
Proof.
  intros Hc Hd.
  set (fr := SetPayload data (SetFin (SetPing AcquireFrame))).
  set (pong := SetFin (SetPayload data (SetCode CodePong AcquireFrame))).
  exists (with_output (enq (output c) fr) c), (with_output (enq (output d) pong) d), fr, pong.
  split; [unfold Ping; fold fr; exact (WriteFrame_has_room c fr Hc)|].
  split; [reflexivity|]. split; [reflexivity|]. split; [reflexivity|].
  split; [|repeat split].
  unfold handleFrame. change (if IsMasked fr then Unmask fr else fr) with fr.
  change (IsControl fr) with true. cbn iota.
  unfold handleControl. change (IsPing fr) with true. cbn iota.
  unfold handlePing. change (Payload fr) with data. fold pong.
  rewrite (WriteFrame_has_room d pong Hd). reflexivity.
Qed.

Lemma Ping_round_trip_witness :
  let s := mkServer [] EmptyString 0 true false true true true true true in
  let c := acquireConn (mkSocket [] [] false) in
  exists c1 d1 fr,
    Ping c [1; 2; 3] = Ret c1 /\ queue (output c1) = [fr] /\
    handleFrame 1000 s c fr = Ret (d1, [OnPing [1; 2; 3]]) /\
    map Payload (queue (output d1)) = [[1; 2; 3]].
Proof.
  intros s c.
  assert (Hroom : has_room (output c)) by (split; [reflexivity | cbn; lia]).
  destruct (Ping_round_trip 1000 s c c [1; 2; 3] Hroom Hroom)
    as (c1 & d1 & fr & pong & HP & Hq & _ & _ & Hh & Hq' & _ & _ & Hp).
  exists c1, d1, fr. split; [exact HP|]. split; [exact Hq|]. split; [exact Hh|].
  rewrite Hq'. cbn. now rewrite Hp.
Defined.

(** Once the peer's close has been handled, a local close does nothing:
    every later [CloseDetail] returns at once, enqueues no second close
    frame and leaves the latch alone. *)
Theorem local_close_after_peer_close (StatusNone : Z) (s : Server) (c : Conn)
        (fr : Frame) (calls : list (Z * bytes)) :
  IsClose fr = true ->
  has_room (errch c) ->
  has_room (output c) ->
  isClosed c = false ->
  closeOnce c = false ->
  exists (c1 : Conn) (reply : Frame),
    handleFrame StatusNone s c fr = Ret (c1, [CloserClosed]) /\
    queue (output c1) = queue (output c) ++ [reply] /\
    IsClose reply = true /\
    CloseDetail_seq c1 calls = Ret (c1, []).
Proof.
  intros Hclose Herr Hout Hlatch Honce.
  apply isClosed_false in Hlatch as [Hq Hopen].
  pose proof (handleFrame_close StatusNone s c fr Hclose Herr Hout Honce Hopen) as H.
  cbv zeta in H.
  eexists _, _. split; [exact H|]. split; [reflexivity|]. split; [reflexivity|].
  apply CloseDetail_seq_closed. unfold isClosed, recv. cbn. rewrite Hq. reflexivity.
Qed.

Lemma local_close_after_peer_close_witness :
  let s := mkServer [] EmptyString 0 true false true true true true true in
  let c := acquireConn (mkSocket [] [] false) in
  let fr := mkFrame true 0 CodeClose false [0; 0; 0; 0] [3; 233] 0 in
  exists c1,
    handleFrame 1000 s c fr = Ret (c1, [CloserClosed]) /\
    map Code (queue (output c1)) = [CodeClose] /\
    CloseDetail_seq c1 [(1000, []); (1001, [])] = Ret (c1, []).
Proof.
  intros s c fr.
  assert (Hr1 : has_room (errch c)) by (split; [reflexivity | cbn; lia]).
  assert (Hr2 : has_room (output c)) by (split; [reflexivity | cbn; lia]).
  destruct (local_close_after_peer_close 1000 s c fr [(1000, []); (1001, [])]
              eq_refl Hr1 Hr2 eq_refl eq_refl)
    as (c1 & reply & Hh & Hq & Hcl & Hcd).
  exists c1. split; [exact Hh|]. split; [|exact Hcd].
  rewrite Hq. unfold IsClose in Hcl. apply Z.eqb_eq in Hcl.
  cbn. unfold Code. now rewrite Hcl.
Defined.



(** ** The older revision, continued *)

(** In the older revision a peer's close is answered from inside the
    handler: the close callback runs at once with the peer's status and
    reason, the reply goes straight to the socket, ahead of whatever waits
    in the outbound queue, and neither the latch nor the mailbox is
    touched, so the supervisor loop is not told to end. *)
Theorem Legacy_peer_close (StatusNone : Z) (s : Server) (c : Conn) (fr : Frame) :
  IsClose fr = true ->
  Status StatusNone (Unmask fr) <> StatusNone ->
  closeHandler s = true ->
  sock_closed (sock c) = false ->
  faults (sock c) = [] ->
  let status := Status StatusNone (Unmask fr) in
  let reply := SetStatus status (SetClose AcquireFrame) in
  exists c',
    Legacy.handleFrame StatusNone s c fr
    = Ret (c', [OnClose (Some (Error status (Payload (Unmask fr))))]) /\
    wire (sock c') = wire (sock c) ++ [SetPayloadSize (MaxPayloadSize c) reply] /\
    output c' = output c /\ closer c' = closer c /\ errch c' = errch c /\
    (isClosed c = false -> Legacy.serveSelect StatusNone s c' CaseCloser = None) /\
    (recv (errch c) = RecvBlocks ->
     Legacy.serveSelect StatusNone s c' CaseErrch = None).
Proof.
  intros Hclose Hst Hreg Hsock Hfaults status reply.
  assert (Hctl : IsControl fr = true).
  { unfold IsClose in Hclose. apply Z.eqb_eq in Hclose. unfold IsControl.
    rewrite Hclose. reflexivity. }
  assert (Hping : IsPing fr = false /\ IsPong fr = false).
  { unfold IsClose in Hclose. apply Z.eqb_eq in Hclose. unfold IsPing, IsPong.
    rewrite Hclose. split; reflexivity. }
  destruct Hping as [Hping Hpong].
  eexists. split.
  { unfold Legacy.handleFrame. rewrite Hctl. unfold Legacy.handleControl.
    rewrite Hping, Hpong, Hclose. unfold Legacy.handleClose. fold status.
    apply Z.eqb_neq in Hst. fold status in Hst. rewrite Hst, Hreg. cbn [negb].
    rewrite writeFrame_healthy by assumption. reflexivity. }
  cbn [fst sock with_sock wire output closer errch].
  repeat split.
  - intros Hlatch. apply isClosed_false in Hlatch as [Hq Hopen].
    unfold Legacy.serveSelect, recv. cbn [closer with_sock]. now rewrite Hq, Hopen.
  - intros Hmail. unfold Legacy.serveSelect. cbn [errch with_sock]. now rewrite Hmail.
Qed.

Lemma Legacy_peer_close_witness :
  let s := mkServer [] EmptyString 0 true false true true true true true in
  let c := acquireConn (mkSocket [] [] false) in
  let fr := mkFrame true 0 CodeClose false [0; 0; 0; 0] [3; 233; 98; 121; 101] 0 in
  exists c',
    Legacy.handleFrame 1000 s c fr
    = Ret (c', [OnClose (Some (Error 1001 [98; 121; 101]))]) /\
    length (wire (sock c')) = 1%nat /\
    Legacy.serveSelect 1000 s c' CaseCloser = None /\
    Legacy.serveSelect 1000 s c' CaseErrch = None.
Proof.
  intros s c fr.
  assert (Hne : Status 1000 (Unmask fr) <> 1000) by (cbn; lia).
  destruct (Legacy_peer_close 1000 s c fr eq_refl Hne eq_refl eq_refl eq_refl)
    as (c' & Hh & Hw & _ & _ & _ & Hl & He).
  exists c'. split; [exact Hh|]. split; [now rewrite Hw|].
  split; [exact (Hl eq_refl) | exact (He eq_refl)].
Defined.
